(** * sfs.time.source: time-domain point source and mirror-image sources

    A shallow embedding of [sfs/time/source.py].  Numbers are IEEE-754
    binary64 values (numpy's float64), modelled by Rocq's primitive floats,
    so that division by zero, infinities and NaN behave as they do in the
    program.  Arrays are numpy arrays: a shape and one element per index,
    combined by numpy's broadcasting rule.  Python exceptions are results
    of an error monad. *)

From Stdlib Require Import Floats ZArith List Bool Lia.
From Stdlib Require String Uint63.
Import ListNotations String.StringSyntax.
Open Scope string_scope.

(** ** Exceptions and results *)

(** The exceptions that the module's calls into numpy raise.  The message
    is the leading text of numpy's; the operand shapes that numpy appends
    to a broadcasting error are left out. *)
Inductive exn : Type :=
| ValueError (msg : String.string).

Inductive result (A : Type) : Type :=
| Ok (a : A)
| Raise (e : exn).

Arguments Ok {A} a.
Arguments Raise {A} e.

Definition bind {A B : Type} (m : result A) (k : A -> result B) : result B :=
  match m with
  | Ok a => k a
  | Raise e => Raise e
  end.

Notation "x <- m ;; k" := (bind m (fun x => k))
  (at level 61, m at next level, right associativity).

(** ** float64 *)

Module F64.

Open Scope float_scope.

(** Classification of a binary64 value, read off its IEEE-754 form. *)
Definition is_nan (x : float) : bool :=
  match Prim2SF x with S754_nan => true | _ => false end.

Definition is_zero (x : float) : bool :=
  match Prim2SF x with S754_zero _ => true | _ => false end.

Definition is_inf (x : float) : bool :=
  match Prim2SF x with S754_infinity _ => true | _ => false end.

Definition is_finite (x : float) : bool :=
  match Prim2SF x with
  | S754_zero _ | S754_finite _ _ _ => true
  | _ => false
  end.


(** Conversion of a (small) non-negative integer, as numpy converts an
    int64 operand of a float64 operation. *)
Definition of_nat (n : nat) : float :=
  PrimFloat.of_uint63 (Uint63.of_Z (Z.of_nat n)).

(** Conversion of a Python int operand. *)
Definition of_int (z : Z) : float :=
  match z with
  | Z0 => 0
  | Zpos _ => PrimFloat.of_uint63 (Uint63.of_Z z)
  | Zneg _ => - PrimFloat.of_uint63 (Uint63.of_Z (Z.opp z))
  end.

(** [x != y] *)
Definition neqb (x y : float) : bool := negb (x =? y).

End F64.

Import F64.
Open Scope float_scope.

(** ** numpy arrays *)

(** An n-dimensional float64 array: its shape and its element at each
    index (a list with one position per axis). *)
Record ndarray : Type := mk_ndarray {
  shape : list nat;
  get : list nat -> float
}.

(** A two-dimensional int64 array, by rows. *)
Record int_matrix : Type := mk_int_matrix {
  ncols : nat;
  rows : list (list Z)
}.

Definition wf_matrix (m : int_matrix) : Prop :=
  Forall (fun r => length r = ncols m) (rows m).

Module Np.

(** Broadcasting aligns shapes on their last axis; these two work on
    reversed shapes and indices. *)
Fixpoint broadcast_rev (a b : list nat) : option (list nat) :=
  match a, b with
  | [], _ => Some b
  | _, [] => Some a
  | m :: a', n :: b' =>
      match broadcast_rev a' b' with
      | None => None
      | Some r =>
          if (m =? n)%nat then Some (m :: r)
          else if (m =? 1)%nat then Some (n :: r)
          else if (n =? 1)%nat then Some (m :: r)
          else None
      end
  end.

Fixpoint project_rev (sh idx : list nat) : list nat :=
  match sh, idx with
  | m :: sh', i :: idx' =>
      (if (m =? 1)%nat then 0%nat else i) :: project_rev sh' idx'
  | _, _ => []
  end.

(** The common shape of two operands, if there is one. *)
Definition broadcast_shapes (a b : list nat) : option (list nat) :=
  option_map (@rev nat) (broadcast_rev (rev a) (rev b)).

(** The index into an operand of shape [sh] that feeds the element [idx]
    of the broadcast result: leading axes are dropped, axes of length one
    are read at position 0. *)
Definition project (sh idx : list nat) : list nat :=
  rev (project_rev (rev sh) (rev idx)).

(** A binary ufunc. *)
Definition ufunc2 (f : float -> float -> float) (a b : ndarray)
  : result ndarray :=
  match broadcast_shapes (shape a) (shape b) with
  | None => Raise (ValueError "operands could not be broadcast together")
  | Some sh =>
      Ok {| shape := sh;
            get := fun idx => f (get a (project (shape a) idx))
                                (get b (project (shape b) idx)) |}
  end.

(** A unary ufunc, or a binary one with a scalar operand. *)
Definition map (f : float -> float) (a : ndarray) : ndarray :=
  {| shape := shape a; get := fun idx => f (get a idx) |}.

(** In-place [a += b]: the result must have the shape of [a]. *)
Definition iadd (a b : ndarray) : result ndarray :=
  match broadcast_shapes (shape a) (shape b) with
  | None => Raise (ValueError "operands could not be broadcast together")
  | Some sh =>
      if list_eq_dec Nat.eq_dec sh (shape a) then
        Ok {| shape := shape a;
              get := fun idx => get a idx + get b (project (shape b) idx) |}
      else Raise (ValueError "non-broadcastable output operand")
  end.

(** [np.pi] *)
Definition pi : float := 0x1.921fb54442d18p+1.

(** [np.arange(n) / samplerate] *)
Definition arange_div (n : nat) (samplerate : float) : list float :=
  List.map (fun k => of_nat k / samplerate) (seq 0 n).

(** [np.ones(n)] *)
Definition ones (n : nat) : list float := repeat 1 n.

(** [np.linalg.norm] of three coordinate components: the square root of
    their dot product with themselves, summed from the left. *)
Definition linalg_norm (v : ndarray * ndarray * ndarray) : result ndarray :=
  let '(vx, vy, vz) := v in
  sxy <- ufunc2 add (map (fun a => a * a) vx) (map (fun a => a * a) vy) ;;
  s <- ufunc2 add sxy (map (fun a => a * a) vz) ;;
  Ok (map sqrt s).

(** *** [np.interp]

    The routine of numpy's C core.  Its search returns the index [j] of
    the sample interval that holds the key, [-1] before the first sample
    and [len] after the last.  On increasing sample points, which
    [np.interp] asks for and a sample rate > 0 gives, numpy's bisection
    and this left-to-right scan return the same index.  On other sample
    points numpy's result depends on the guess that it carries from one
    query to the next; this is not followed here, and the properties that
    depend on the search are stated for increasing sample points. *)
Fixpoint linear_search (key : float) (arr : list float) (i : nat) : nat :=
  match arr with
  | [] => i
  | a :: rest => if a <=? key then linear_search key rest (S i) else i
  end.

Definition binary_search_with_guess (key : float) (arr : list float) : Z :=
  let len := length arr in
  if nth (len - 1) arr 0 <? key then Z.of_nat len
  else if key <? nth 0 arr 0 then (-1)%Z
  else (Z.of_nat (linear_search key (tl arr) 1) - 1)%Z.

(** The value on the segment from [(x0, y0)] to [(x1, y1)]: evaluated
    from the left end, and from the right end when that gives NaN. *)
Definition segment (x0 y0 x1 y1 x : float) : float :=
  let slope := (y1 - y0) / (x1 - x0) in
  let res := slope * (x - x0) + y0 in
  if is_nan res then
    let res' := slope * (x - x1) + y1 in
    if is_nan res' && (y0 =? y1) then y0 else res'
  else res.

Definition interp_one (xp fp : list float) (lval rval x_val : float)
  : float :=
  let lenxp := length xp in
  if (lenxp =? 1)%nat then
    let xp_val := nth 0 xp 0 in
    let fp_val := nth 0 fp 0 in
    if x_val <? xp_val then lval
    else if xp_val <? x_val then rval
    else fp_val
  else if is_nan x_val then x_val
  else
    let j := binary_search_with_guess x_val xp in
    if (j =? -1)%Z then lval
    else if (j =? Z.of_nat lenxp)%Z then rval
    else
      let j := Z.to_nat j in
      if (j =? lenxp - 1)%nat then nth j fp 0
      else if nth j xp 0 =? x_val then nth j fp 0
      else segment (nth j xp 0) (nth j fp 0)
                   (nth (S j) xp 0) (nth (S j) fp 0) x_val.

Definition interp (x : ndarray) (xp fp : list float) (left right : float)
  : result ndarray :=
  if (length xp =? 0)%nat then
    Raise (ValueError "array of sample points is empty")
  else if negb (length fp =? length xp)%nat then
    Raise (ValueError "fp and xp are not of the same length.")
  else Ok (map (interp_one xp fp left right) x).

End Np.

(** ** Values of [sfs.util] and [sfs.defs] used by the module *)

(** A position [(x, y, z)], as [util.asarray_1d] returns it. *)
Definition vec3 : Type := (float * float * float)%type.

(** The three coordinate components of a grid. *)
Definition xyz : Type := (ndarray * ndarray * ndarray)%type.

(** An excitation signal: audio data, sampling rate and, optionally, the
    time of the first sample. *)
Inductive signal : Type :=
| Signal (data : list float) (samplerate : float) (time : option float).

Module Util.

(** Modelled from the spec: [util.as_delayed_signal] is not among the
    sources; it normalises a signal to (samples, sample rate, causal
    offset), the offset being 0 when none is given. *)
Definition as_delayed_signal (s : signal) : list float * float * float :=
  match s with
  | Signal data samplerate time =>
      (data, samplerate, match time with Some t => t | None => 0 end)
  end.

(** [grid - xs]: each coordinate component minus the coordinate of the
    source. *)
Definition grid_sub (grid : xyz) (xs : vec3) : xyz :=
  let '(gx, gy, gz) := grid in
  let '(x, y, z) := xs in
  (Np.map (fun g => g - x) gx,
   Np.map (fun g => g - y) gy,
   Np.map (fun g => g - z) gz).

End Util.

(** The value of the accumulator [p] of [point_image_sources]: the Python
    int it starts as, or an array. *)
Inductive pyval : Type :=
| PInt (z : Z)
| PArr (a : ndarray).

(** [p += a] *)
Definition py_iadd (p : pyval) (a : ndarray) : result pyval :=
  match p with
  | PInt z => Ok (PArr (Np.map (fun v => of_int z + v) a))
  | PArr q => r <- Np.iadd q a ;; Ok (PArr r)
  end.

Section Source.

(** [defs.c], the default speed of sound; [sfs.defs] is not among the
    sources. *)
Variable defs_c : float.

(** C's [pow], which numpy applies to a float64 base and an int64
    exponent converted to float64. *)
Variable fpow : float -> Z -> float.

(** [util.image_sources_for_box x L N], which is not among the sources:
    the positions of the image sources and, by rows, how often each wall
    is hit on the way. *)
Variable image_sources_for_box : vec3 -> vec3 -> Z -> list vec3 * int_matrix.

(** [np.power] of a one-dimensional float array and a two-dimensional
    integer array, broadcast on the last axis. *)
Definition power (coeffs : list float) (order : int_matrix)
  : result (list (list float)) :=
  let n := length coeffs in
  if (n =? ncols order)%nat then
    Ok (List.map (fun row => List.map (fun ck => fpow (fst ck) (snd ck))
                                      (combine coeffs row))
                 (rows order))
  else if (ncols order =? 1)%nat then
    Ok (List.map (fun row => List.map (fun c => fpow c (nth 0 row 0%Z)) coeffs)
                 (rows order))
  else if (n =? 1)%nat then
    Ok (List.map (fun row => List.map (fpow (nth 0 coeffs 0)) row)
                 (rows order))
  else Raise (ValueError "operands could not be broadcast together").

(** [np.prod(_, axis=1)] *)
Definition prod_axis1 (m : list (list float)) : list float :=
  List.map (fun row => fold_left mul row 1) m.

(** Source model for a point source: 3D Green's function. *)
Definition point (xs : vec3) (sig : signal) (observation_time : float)
           (grid : xyz) (c : option float) : result ndarray :=
  let '(data, samplerate, signal_offset) := Util.as_delayed_signal sig in
  let c := match c with None => defs_c | Some c => c end in
  r <- Np.linalg_norm (Util.grid_sub grid xs) ;;
  let weights := Np.map (fun r => 1 / (4 * Np.pi * r)) r in
  let delays := Np.map (fun r => r / c) r in
  let base_time := observation_time - signal_offset in
  v <- Np.interp (Np.map (fun d => base_time - d) delays)
                 (Np.arange_div (length data) samplerate)
                 data 0 0 ;;
  Np.ufunc2 mul weights v.

(** The loop of [point_image_sources]. *)
Fixpoint superpose (sig : signal) (observation_time : float) (grid : xyz)
         (c : option float) (p : pyval) (images : list (vec3 * float))
  : result pyval :=
  match images with
  | [] => Ok p
  | (position, strength) :: rest =>
      if neqb strength 0 then
        f <- point position sig observation_time grid c ;;
        p' <- py_iadd p (Np.map (mul strength) f) ;;
        superpose sig observation_time grid c p' rest
      else superpose sig observation_time grid c p rest
  end.

Definition source_strengths (coeffs : list float) (order : int_matrix)
  : result (list float) :=
  pw <- power coeffs order ;;
  Ok (prod_axis1 pw).

(** Point source in a rectangular room using the mirror image source
    model. *)
Definition point_image_sources (x0 : vec3) (sig : signal)
           (observation_time : float) (grid : xyz) (L : vec3)
           (max_order : Z) (coeffs : option (list float)) (c : option float)
  : result pyval :=
  let coeffs := match coeffs with None => Np.ones 6 | Some cs => cs end in
  let '(positions, order) := image_sources_for_box x0 L max_order in
  strengths <- source_strengths coeffs order ;;
  superpose sig observation_time grid c (PInt 0)
            (combine positions strengths).

End Source.

(** ** The quantities the properties are stated with *)

(** The shape on which the three components of a grid broadcast. *)
Definition grid_shape (grid : xyz) : option (list nat) :=
  let '(gx, gy, gz) := grid in
  match Np.broadcast_shapes (shape gx) (shape gy) with
  | None => None
  | Some s => Np.broadcast_shapes s (shape gz)
  end.

(** The grid point at an index of the broadcast grid. *)
Definition grid_point (grid : xyz) (idx : list nat) : vec3 :=
  let '(gx, gy, gz) := grid in
  (get gx (Np.project (shape gx) idx),
   get gy (Np.project (shape gy) idx),
   get gz (Np.project (shape gz) idx)).

(** Euclidean distance from the source at [xs] to the point [g]. *)
Definition distance (xs g : vec3) : float :=
  let '(x, y, z) := xs in
  let '(gx, gy, gz) := g in
  sqrt ((gx - x) * (gx - x) + (gy - y) * (gy - y) + (gz - z) * (gz - z)).

(** The amplitude weight at distance [r]. *)
Definition weight (r : float) : float := 1 / (4 * Np.pi * r).

(** The time at which the signal is read to explain what is observed at
    distance [r]. *)
Definition retarded_time (observation_time offset r c : float) : float :=
  observation_time - offset - r / c.

(** The time of sample [k] on the signal's own time axis. *)
Definition sample_time (samplerate : float) (k : nat) : float :=
  of_nat k / samplerate.

(** The straight line through [(x0, y0)] and [(x1, y1)], at [x]. *)
Definition linear_interpolant (x0 y0 x1 y1 x : float) : float :=
  y0 + (x - x0) * ((y1 - y0) / (x1 - x0)).

(** [interpolated data samplerate t v]: [v] is the signal linearly
    interpolated at time [t], and zero outside its support.  Between two
    samples [v] is the value of the line through them, when that is a
    number. *)
Inductive interpolated (data : list float) (samplerate t : float)
  : float -> Prop :=
| interpolated_before :
    (t <? sample_time samplerate 0) = true ->
    interpolated data samplerate t 0
| interpolated_after :
    (sample_time samplerate (length data - 1) <? t) = true ->
    interpolated data samplerate t 0
| interpolated_on_sample (k : nat) :
    (k < length data)%nat ->
    (sample_time samplerate k =? t) = true ->
    interpolated data samplerate t (nth k data 0)
| interpolated_between (k : nat) (v : float) :
    (S k < length data)%nat ->
    (sample_time samplerate k <=? t) = true ->
    (t <? sample_time samplerate (S k)) = true ->
    (let line := linear_interpolant
                   (sample_time samplerate k) (nth k data 0)
                   (sample_time samplerate (S k)) (nth (S k) data 0) t in
     is_nan line = false -> v = line) ->
    interpolated data samplerate t v.

(** What [point] computes for one grid point [g]. *)
Definition point_value (defs_c : float) (xs : vec3) (sig : signal)
           (observation_time : float) (c : option float) (g : vec3) : float :=
  let '(data, samplerate, signal_offset) := Util.as_delayed_signal sig in
  let c := match c with None => defs_c | Some c => c end in
  let r := distance xs g in
  weight r
  * Np.interp_one (Np.arange_div (length data) samplerate) data 0 0
                  (retarded_time observation_time signal_offset r c).

(** The samples of a signal. *)
Definition signal_data (sig : signal) : list float :=
  match sig with Signal data _ _ => data end.

(** The accumulator read at a grid index; the int broadcasts. *)
Definition value_at (p : pyval) (idx : list nat) : float :=
  match p with
  | PInt z => of_int z
  | PArr a => get a idx
  end.

(** Fields compared element by element with [R], results compared as
    values or as the exception raised. *)
Definition nd_equiv (R : float -> float -> Prop) (a b : ndarray) : Prop :=
  shape a = shape b /\ forall idx, R (get a idx) (get b idx).

Definition py_equiv (R : float -> float -> Prop) (p q : pyval) : Prop :=
  match p, q with
  | PInt z, PInt z' => z = z'
  | PArr a, PArr b => nd_equiv R a b
  | _, _ => False
  end.

Definition result_equiv (R : float -> float -> Prop) (r r' : result pyval)
  : Prop :=
  match r, r' with
  | Ok p, Ok q => py_equiv R p q
  | Raise e, Raise e' => e = e'
  | _, _ => False
  end.

(** The accumulator is still the int, or an array of shape [S]. *)
Definition shape_ok (S : list nat) (p : pyval) : Prop :=
  match p with
  | PInt _ => True
  | PArr a => shape a = S
  end.

(** An image with a non-zero strength, one that the loop does not skip. *)
Definition contributes (image : vec3 * float) : bool := neqb (snd image) 0.

(** The strength of an image by the formula: the product over the walls
    of [coeffs[axis] ** order[axis]]. *)
Definition strength_formula (fpow : float -> Z -> float)
           (coeffs : list float) (order : list Z) : float :=
  fold_left
    (fun acc axis => acc * fpow (nth axis coeffs 0) (nth axis order 0%Z))
    (seq 0 (length coeffs)) 1.


Section Sums.

Variable defs_c : float.
Variables (sig : signal) (observation_time : float) (grid : xyz)
          (c : option float).

(** The sum that includes every image, weighted by its strength. *)
Fixpoint naive_sum (p : pyval) (images : list (vec3 * float))
  : result pyval :=
  match images with
  | [] => Ok p
  | (position, strength) :: rest =>
      f <- point defs_c position sig observation_time grid c ;;
      p' <- py_iadd p (Np.map (mul strength) f) ;;
      naive_sum p' rest
  end.

(** The plain sum of [point] over the positions. *)
Fixpoint direct_sum (p : pyval) (positions : list vec3) : result pyval :=
  match positions with
  | [] => Ok p
  | position :: rest =>
      f <- point defs_c position sig observation_time grid c ;;
      p' <- py_iadd p f ;;
      direct_sum p' rest
  end.

(** The value, at a grid index, of the sum over [images] started from
    [acc]. *)
Definition sum_at (idx : list nat) (images : list (vec3 * float))
           (acc : float) : float :=
  fold_left
    (fun acc image =>
       acc + snd image
             * point_value defs_c (fst image) sig observation_time c
                           (grid_point grid idx))
    images acc.

End Sums.

(** ** Sums of fields, and further relations and values *)

(** [fields_of positions fields]: [fields] are, in order, the fields that
    [point] returns at [positions]. *)
Definition fields_of (defs_c : float) (sig : signal) (observation_time : float)
           (grid : xyz) (c : option float)
           (positions : list vec3) (fields : list ndarray) : Prop :=
  Forall2 (fun position f =>
             point defs_c position sig observation_time grid c = Ok f)
          positions fields.

(** The sum at a grid index, started from 0 and taken in order, of the
    given fields. *)
Definition plain_sum_at (fields : list ndarray) (idx : list nat) : float :=
  fold_left (fun acc f => acc + get f idx) fields 0.



(** A coefficient between 0 and 1, the range of a reflection
    coefficient. *)
Definition in_unit_interval (x : float) : bool := (0 <=? x) && (x <=? 1).

(** Two outcomes of [point] agree: the same error, or fields that agree
    by [R]. *)
Definition field_result_equiv (R : float -> float -> Prop)
           (r r' : result ndarray) : Prop :=
  match r, r' with
  | Ok f, Ok g => nd_equiv R f g
  | Raise e, Raise e' => e = e'
  | _, _ => False
  end.

(** The time axis of the signal increases strictly over its samples. *)
Definition increasing_times (samplerate : float) (n : nat) : Prop :=
  forall i j, (i < j < n)%nat ->
              (sample_time samplerate i <? sample_time samplerate j) = true.

(** ** Values for the examples *)

Module Examples.

(** A zero-dimensional array. *)
Definition scalar (v : float) : ndarray :=
  {| shape := []; get := fun _ => v |}.

(** A one-dimensional array. *)
Definition vector (l : list float) : ndarray :=
  {| shape := [length l]; get := fun idx => nth (hd 0%nat idx) l 0 |}.

(** A power by repeated multiplication; it has the special values of
    C's [pow] that the properties rely on. *)
Definition pow_mul (x : float) (k : Z) : float :=
  match k with
  | Z0 => 1
  | Zpos p => Pos.iter (mul x) 1 p
  | Zneg p => 1 / Pos.iter (mul x) 1 p
  end.

(** A speed of sound. *)
Definition c_air : float := 343.


(** An enumeration in one dimension: the source and, from order 1 on,
    its mirror image at the wall x = 0. *)
Definition mirror_x0 : vec3 -> vec3 -> Z -> list vec3 * int_matrix :=
  fun x _ n =>
    let '(a, b, d) := x in
    if (n <? 0)%Z then ([], {| ncols := 6; rows := [] |})
    else if (n =? 0)%Z then
      ([x], {| ncols := 6; rows := [[0; 0; 0; 0; 0; 0]%Z] |})
    else
      ([x; (- a, b, d)],
       {| ncols := 6;
          rows := [[0; 0; 0; 0; 0; 0]%Z; [1; 0; 0; 0; 0; 0]%Z] |}).

(** A signal of three samples at 1 Hz, a source in a room of 2 x 1 x 1, a
    grid of two points beside the source, and one whose first point is the
    mirror image of the source at the wall x = 0. *)
Definition sig1 : signal := Signal [1; 2; 3] 1 None.
Definition source1 : vec3 := (1, 0.5, 0.5).
Definition room1 : vec3 := (2, 1, 1).
Definition grid1 : xyz := (vector [0.5; 1.5], vector [0.5; 0.5], scalar 0.5).
Definition grid2 : xyz := (vector [-1; 1.5], vector [0.5; 0.5], scalar 0.5).





End Examples.

(** * Facts *)

(** ** binary64 arithmetic *)

(** The specification of the float operations is written with the
    integer operations of the core library; name them as the standard
    library does. *)
Ltac zfold :=
  change IntDef.Z.add with Z.add in *;
  change IntDef.Z.sub with Z.sub in *;
  change IntDef.Z.opp with Z.opp in *;
  change IntDef.Z.leb with Z.leb in *;
  change IntDef.Z.eqb with Z.eqb in *;
  change IntDef.Z.min with Z.min in *;
  change IntDef.Z.max with Z.max in *;
  change IntDef.Z.compare with Z.compare in *;
  change IntDef.Z.div_eucl with Z.div_eucl in *;
  change IntDef.Z.shiftl with Z.shiftl in *;
  change IntDef.Z.even with Z.even in *;
  change PosDef.Pos.mul with Pos.mul in *.

(** Classifications and comparisons in terms of the IEEE-754 form. *)
Ltac spec_unfold :=
  unfold is_nan, is_zero, is_inf, is_finite, neqb in *;
  repeat (rewrite mul_spec in * || rewrite add_spec in *
          || rewrite sub_spec in * || rewrite div_spec in *
          || rewrite sqrt_spec in * || rewrite FloatAxioms.eqb_spec in *
          || rewrite FloatAxioms.ltb_spec in *
          || rewrite FloatAxioms.leb_spec in * ).

Module F64Facts.







Lemma fadd_comm x y : x + y = y + x.
Proof.
  apply Prim2SF_inj. rewrite !add_spec.
  destruct (Prim2SF x) as [[|]|[|]| |sx mx ex],
           (Prim2SF y) as [[|]|[|]| |sy my ey];
    try reflexivity.
  unfold SF64add, SFadd. zfold.
  rewrite (Z.min_comm ey ex).
  now rewrite Z.add_comm.
Qed.

Lemma fmul_comm x y : x * y = y * x.
Proof.
  apply Prim2SF_inj. rewrite !mul_spec.
  destruct (Prim2SF x) as [[|]|[|]| |sx mx ex],
           (Prim2SF y) as [[|]|[|]| |sy my ey];
    try reflexivity; try (destruct sy; reflexivity);
    try (destruct sx; reflexivity).
  unfold SF64mul, SFmul. zfold.
  now rewrite (Pos.mul_comm my mx), (Z.add_comm ey ex), (xorb_comm sy sx).
Qed.

Lemma fmul_finite_zero w z :
  is_finite w = true -> is_zero z = true -> is_zero (w * z) = true.
Proof.
  spec_unfold. destruct (Prim2SF w), (Prim2SF z); try discriminate; reflexivity.
Qed.

Lemma fmul_zero_finite z w :
  is_zero z = true -> is_finite w = true -> is_zero (z * w) = true.
Proof.
  spec_unfold. destruct (Prim2SF w), (Prim2SF z); try discriminate; reflexivity.
Qed.


Lemma fmul_inf_zero w z :
  is_inf w = true -> is_zero z = true -> is_nan (w * z) = true.
Proof.
  spec_unfold. destruct (Prim2SF w), (Prim2SF z); try discriminate; reflexivity.
Qed.



Lemma eqb_zero_of_is_zero z : is_zero z = true -> (z =? 0) = true.
Proof.
  spec_unfold. change (Prim2SF 0) with (S754_zero false).
  destruct (Prim2SF z); try discriminate. reflexivity.
Qed.



Lemma ltb_not_nan x y :
  (x <? y) = true -> is_nan x = false /\ is_nan y = false.
Proof.
  spec_unfold. unfold SFltb.
  destruct (Prim2SF x), (Prim2SF y); simpl; try discriminate; auto.
Qed.

Lemma SFcompare_antisym x y :
  SFcompare y x = option_map CompOpp (SFcompare x y).
Proof.
  destruct x as [sx|sx| |sx mx ex], y as [sy|sy| |sy my ey]; simpl;
    try reflexivity;
    try (destruct sx; reflexivity); try (destruct sy; reflexivity);
    try (destruct sx, sy; reflexivity).
  zfold. f_equal.
  change (PosDef.Pos.compare_cont Eq my mx) with (Pos.compare my mx).
  change (PosDef.Pos.compare_cont Eq mx my) with (Pos.compare mx my).
  rewrite (Z.compare_antisym ex ey), (Pos.compare_antisym mx my).
  destruct sx, sy; try reflexivity;
    destruct (ex ?= ey)%Z; simpl; try reflexivity;
    now rewrite CompOpp_involutive.
Qed.

Lemma leb_false_ltb x y :
  is_nan x = false -> is_nan y = false -> (x <=? y) = false -> (y <? x) = true.
Proof.
  spec_unfold. unfold SFleb, SFltb.
  rewrite (SFcompare_antisym (Prim2SF x) (Prim2SF y)).
  destruct (SFcompare (Prim2SF x) (Prim2SF y)) as [[]|] eqn:E; simpl;
    try discriminate; auto.
  destruct (Prim2SF x), (Prim2SF y); simpl in *; discriminate.
Qed.

Lemma ltb_false_leb x y :
  is_nan x = false -> is_nan y = false -> (x <? y) = false -> (y <=? x) = true.
Proof.
  spec_unfold. unfold SFleb, SFltb.
  rewrite (SFcompare_antisym (Prim2SF x) (Prim2SF y)).
  destruct (SFcompare (Prim2SF x) (Prim2SF y)) as [[]|] eqn:E; simpl;
    try discriminate; auto.
  destruct (Prim2SF x), (Prim2SF y); simpl in *; discriminate.
Qed.

Lemma leb_not_ltb_eqb x y :
  (x <=? y) = true -> (x <? y) = false -> (x =? y) = true.
Proof.
  spec_unfold. unfold SFleb, SFltb, SFeqb.
  destruct (SFcompare (Prim2SF x) (Prim2SF y)) as [[]|]; simpl;
    try discriminate; auto.
Qed.

Lemma ltb_zero_not_zero y : (0 <? y) = true -> is_zero y = false.
Proof.
  spec_unfold. change (Prim2SF 0) with (S754_zero false).
  destruct (Prim2SF y); try reflexivity. discriminate.
Qed.

(** *** Rounding never produces NaN *)

Lemma iter_pos_inv (A : Type) (f : A -> A) (P : A -> Prop) :
  (forall x, P x -> P (f x)) ->
  forall n x, P x -> P (SpecFloat.iter_pos f n x).
Proof.
  intros Hf. induction n as [n IH|n IH|]; intros x Hx; simpl; auto.
Qed.

Lemma shr_1_nonneg mrs : (0 <= shr_m mrs)%Z -> (0 <= shr_m (shr_1 mrs))%Z.
Proof.
  destruct mrs as [m r s]. destruct m as [|[p|p|]|p]; simpl; lia.
Qed.

Lemma shr_fexp_nonneg m e l :
  (0 <= m)%Z -> (0 <= shr_m (fst (shr_fexp prec emax m e l)))%Z.
Proof.
  intro Hm. unfold shr_fexp, shr.
  assert (H0 : (0 <= shr_m (shr_record_of_loc m l))%Z)
    by (destruct l as [|[]]; exact Hm).
  destruct (_ - e)%Z; simpl; auto.
  apply iter_pos_inv; auto using shr_1_nonneg.
Qed.

Lemma round_nearest_even_nonneg m l :
  (0 <= m)%Z -> (0 <= round_nearest_even m l)%Z.
Proof.
  intro Hm. destruct l as [|[]]; simpl; zfold; try lia.
  destruct (Z.even m); lia.
Qed.

Lemma binary_round_aux_not_nan sx mx ex lx :
  (0 <= mx)%Z -> binary_round_aux prec emax sx mx ex lx <> S754_nan.
Proof.
  intro Hm. unfold binary_round_aux.
  pose proof (shr_fexp_nonneg mx ex lx Hm) as H1.
  destruct (shr_fexp prec emax mx ex lx) as [mrs' e']. simpl in H1.
  pose proof (round_nearest_even_nonneg _ (loc_of_shr_record mrs') H1) as Hr.
  pose proof (shr_fexp_nonneg _ e' loc_Exact Hr) as H2.
  destruct (shr_fexp prec emax _ e' loc_Exact) as [mrs'' e'']. simpl in H2.
  destruct (shr_m mrs''); try discriminate; try lia.
  destruct (_ <=? _)%Z; discriminate.
Qed.

Lemma binary_normalize_not_nan m e s :
  binary_normalize prec emax m e s <> S754_nan.
Proof.
  destruct m; simpl; try discriminate; unfold binary_round;
    destruct (shl_align _ _ _); apply binary_round_aux_not_nan; lia.
Qed.

Lemma of_nat_not_nan k : is_nan (of_nat k) = false.
Proof.
  unfold is_nan, of_nat. rewrite of_uint63_spec.
  pose proof (binary_normalize_not_nan
                (Uint63Axioms.to_Z (Uint63.of_Z (Z.of_nat k))) 0 false).
  destruct (binary_normalize _ _ _ _ _); congruence.
Qed.

Lemma SFdiv_finite_not_nan x sy my ey :
  x <> S754_nan -> SF64div x (S754_finite sy my ey) <> S754_nan.
Proof.
  intro Hx. destruct x as [sx|sx| |sx mx ex]; simpl;
    try discriminate; try congruence.
  unfold SFdiv_core_binary. zfold.
  set (m' := match (_ - _ - _)%Z with Z0 => _ | Zpos _ => _ | Zneg _ => _ end).
  assert (Hm' : (0 <= m')%Z).
  { subst m'. destruct (_ - _ - _)%Z; try lia. apply Z.shiftl_nonneg. lia. }
  pose proof (Z_div_mod m' (Z.pos my) eq_refl) as D.
  destruct (Z.div_eucl m' (Z.pos my)) as [q r].
  apply binary_round_aux_not_nan. nia.
Qed.

(** A number divided by a finite non-zero number is a number. *)
Lemma fdiv_not_nan x y :
  is_nan x = false -> is_finite y = true -> is_zero y = false ->
  is_nan (x / y) = false.
Proof.
  unfold is_nan, is_finite, is_zero. rewrite div_spec.
  destruct (Prim2SF y) as [| | |sy my ey]; try discriminate. intros Hx _ _.
  pose proof (SFdiv_finite_not_nan (Prim2SF x) sy my ey) as H.
  destruct (SF64div _ _); auto. exfalso. apply H; auto.
  destruct (Prim2SF x); congruence.
Qed.

(** *** Exact results *)


Lemma digits2_pos_shift52 m :
  digits2_pos (Pos.mul 4503599627370496 m) = (digits2_pos m + 52)%positive.
Proof. cbn [Pos.mul digits2_pos]. lia. Qed.

Lemma SFmul_one_l s :
  valid_binary s = true ->
  SF64mul (S754_finite false 4503599627370496 (-52)) s = s.
Proof.
  destruct s as [sg|sg| |sg m e]; try reflexivity.
  intro V.
  unfold valid_binary, SpecFloat.valid_binary, bounded, canonical_mantissa in V.
  apply andb_prop in V. destruct V as [C B]. apply Z.eqb_eq in C.
  unfold SF64mul, SFmul, binary_round_aux, shr_fexp.
  unfold Zdigits2. zfold. rewrite digits2_pos_shift52.
  replace (Z.pos (digits2_pos m + 52) + (-52 + e))%Z
    with (Z.pos (digits2_pos m) + e)%Z by lia.
  rewrite C.
  replace (e - (-52 + e))%Z with 52%Z by lia.
  cbn [shr shr_record_of_loc SpecFloat.iter_pos Pos.mul shr_1 shr_m
       loc_of_shr_record round_nearest_even xorb orb shr_r shr_s].
  replace (-52 + e + 52)%Z with e by lia.
  rewrite C, Z.sub_diag. cbn [shr shr_m].
  rewrite B. reflexivity.
Qed.

(** 1 * x is x. *)
Lemma fmul_1_l x : 1 * x = x.
Proof.
  apply Prim2SF_inj. rewrite mul_spec.
  change (Prim2SF 1) with (S754_finite false 4503599627370496 (-52)).
  apply SFmul_one_l, Prim2SF_valid.
Qed.

End F64Facts.

Import F64Facts.

(** ** Broadcasting *)

Module NpFacts.

Import Np.

Lemma broadcast_rev_diag s : broadcast_rev s s = Some s.
Proof.
  induction s as [|m s IH]; simpl; [reflexivity|].
  now rewrite IH, Nat.eqb_refl.
Qed.

Lemma broadcast_shapes_diag s : broadcast_shapes s s = Some s.
Proof.
  unfold broadcast_shapes. rewrite broadcast_rev_diag. simpl.
  now rewrite rev_involutive.
Qed.

Lemma project_rev_idem sh idx :
  project_rev sh (project_rev sh idx) = project_rev sh idx.
Proof.
  revert idx. induction sh as [|k l IHl]; intros [|i idx]; simpl;
    try reflexivity.
  rewrite IHl. destruct (Nat.eqb_spec k 1); reflexivity.
Qed.

(** The axis of the common shape that comes from an operand axis [m]. *)
Lemma broadcast_axis m n r s :
  (if (m =? n)%nat then Some (m :: r)
   else if (m =? 1)%nat then Some (n :: r)
   else if (n =? 1)%nat then Some (m :: r)
   else None) = Some s ->
  exists u, s = u :: r /\ (m = 1%nat \/ u = m) /\ (n = 1%nat \/ u = n).
Proof.
  destruct (Nat.eqb_spec m n) as [->|Hmn].
  { intro H. injection H as <-. exists n. auto. }
  destruct (Nat.eqb_spec m 1) as [->|Hm].
  { intro H. injection H as <-. exists n. auto. }
  destruct (Nat.eqb_spec n 1) as [->|Hn]; [|discriminate].
  intro H. injection H as <-. exists m. auto.
Qed.

Lemma project_axis m u i :
  m = 1%nat \/ u = m ->
  (if (m =? 1)%nat then 0%nat else if (u =? 1)%nat then 0%nat else i)
  = (if (m =? 1)%nat then 0%nat else i).
Proof.
  intros [->| ->]; [reflexivity|].
  destruct (Nat.eqb_spec m 1); reflexivity.
Qed.

(** Projecting on the common shape first does not change the projection
    on an operand. *)
Lemma project_rev_broadcast_l a b s idx :
  broadcast_rev a b = Some s ->
  project_rev a (project_rev s idx) = project_rev a idx.
Proof.
  revert b s idx. induction a as [|m a IH]; intros b s idx H; [reflexivity|].
  destruct b as [|n b].
  - simpl in H. injection H as <-. apply project_rev_idem.
  - simpl in H. destruct (broadcast_rev a b) as [r|] eqn:E; [|discriminate].
    destruct (broadcast_axis m n r s H) as (u & -> & Hu & _).
    destruct idx as [|i idx]; [reflexivity|].
    simpl. rewrite (IH b r idx E). f_equal. now apply project_axis.
Qed.

Lemma project_rev_broadcast_r a b s idx :
  broadcast_rev a b = Some s ->
  project_rev b (project_rev s idx) = project_rev b idx.
Proof.
  revert a s idx. induction b as [|n b IH]; intros a s idx H.
  - destruct (project_rev s idx); reflexivity.
  - destruct a as [|m a].
    + simpl in H. injection H as <-. apply project_rev_idem.
    + simpl in H. destruct (broadcast_rev a b) as [r|] eqn:E; [|discriminate].
      destruct (broadcast_axis m n r s H) as (u & -> & _ & Hu).
      destruct idx as [|i idx]; [reflexivity|].
      simpl. rewrite (IH a r idx E). f_equal. now apply project_axis.
Qed.

Lemma project_broadcast_l a b s idx :
  broadcast_shapes a b = Some s -> project a (project s idx) = project a idx.
Proof.
  unfold broadcast_shapes, project. intro H.
  destruct (broadcast_rev (rev a) (rev b)) as [r|] eqn:E; [|discriminate].
  injection H as <-. rewrite !rev_involutive.
  now rewrite (project_rev_broadcast_l _ _ _ _ E).
Qed.

Lemma project_broadcast_r a b s idx :
  broadcast_shapes a b = Some s -> project b (project s idx) = project b idx.
Proof.
  unfold broadcast_shapes, project. intro H.
  destruct (broadcast_rev (rev a) (rev b)) as [r|] eqn:E; [|discriminate].
  injection H as <-. rewrite !rev_involutive.
  now rewrite (project_rev_broadcast_r _ _ _ _ E).
Qed.

End NpFacts.

Import NpFacts.

(** ** [point] *)

Section PointFacts.

Variable defs_c : float.

Lemma grid_point_project grid S idx :
  grid_shape grid = Some S ->
  grid_point grid (Np.project S idx) = grid_point grid idx.
Proof.
  destruct grid as [[gx gy] gz]. unfold grid_shape, grid_point.
  destruct (Np.broadcast_shapes (shape gx) (shape gy)) as [sxy|] eqn:Exy;
    [|discriminate].
  intro E.
  rewrite (project_broadcast_r _ _ _ idx E).
  rewrite <- (project_broadcast_l _ _ _ (Np.project S idx) Exy).
  rewrite <- (project_broadcast_r _ _ _ (Np.project S idx) Exy).
  rewrite (project_broadcast_l _ _ _ idx E).
  rewrite (project_broadcast_l _ _ _ idx Exy).
  rewrite (project_broadcast_r _ _ _ idx Exy).
  reflexivity.
Qed.

(** The distances [np.linalg.norm] returns. *)
Lemma linalg_norm_ok grid xs S :
  grid_shape grid = Some S ->
  exists r, Np.linalg_norm (Util.grid_sub grid xs) = Ok r
            /\ shape r = S
            /\ forall idx, get r idx = distance xs (grid_point grid idx).
Proof.
  destruct grid as [[gx gy] gz], xs as [[x y] z].
  unfold grid_shape, grid_point, Np.linalg_norm, Util.grid_sub, Np.ufunc2.
  simpl shape.
  destruct (Np.broadcast_shapes (shape gx) (shape gy)) as [sxy|] eqn:Exy;
    [|discriminate].
  intro E. cbn [bind shape get Np.map]. rewrite E. cbn [bind].
  eexists. split; [reflexivity|]. split; [reflexivity|].
  intro idx. cbn [get shape Np.map].
  now rewrite (project_broadcast_l _ _ _ idx Exy),
              (project_broadcast_r _ _ _ idx Exy).
Qed.

Lemma linalg_norm_raise grid xs :
  grid_shape grid = None ->
  Np.linalg_norm (Util.grid_sub grid xs)
  = Raise (ValueError "operands could not be broadcast together").
Proof.
  destruct grid as [[gx gy] gz], xs as [[x y] z].
  unfold grid_shape, Np.linalg_norm, Util.grid_sub, Np.ufunc2. simpl shape.
  destruct (Np.broadcast_shapes (shape gx) (shape gy)) as [sxy|];
    [|reflexivity].
  intro E. simpl. now rewrite E.
Qed.

(** [point] returns a field when the grid broadcasts and the signal has a
    sample; the field is then [point_value] at each grid point. *)
Lemma point_ok xs sig t grid c S :
  grid_shape grid = Some S -> signal_data sig <> [] ->
  exists f, point defs_c xs sig t grid c = Ok f
            /\ shape f = S
            /\ forall idx,
                get f idx = point_value defs_c xs sig t c (grid_point grid idx).
Proof.
  intros HS Hd. destruct sig as [data fs off]. simpl in Hd.
  destruct (linalg_norm_ok grid xs S HS) as (r & Hr & Hsh & Hget).
  unfold point, point_value. simpl Util.as_delayed_signal. cbv beta iota.
  rewrite Hr. simpl bind.
  unfold Np.interp, Np.arange_div. rewrite length_map, length_seq.
  destruct data as [|d data]; [contradiction|].
  simpl length. simpl Nat.eqb. rewrite Nat.eqb_refl. simpl negb. cbv iota.
  simpl bind. unfold Np.ufunc2. simpl shape. rewrite Hsh, broadcast_shapes_diag.
  eexists. split; [reflexivity|]. split; [reflexivity|].
  intro idx. simpl get. rewrite !Hget.
  rewrite (grid_point_project grid S idx HS). reflexivity.
Qed.

Lemma point_raise_grid xs sig t grid c :
  grid_shape grid = None ->
  point defs_c xs sig t grid c
  = Raise (ValueError "operands could not be broadcast together").
Proof.
  intro H. destruct sig as [data fs off]. unfold point.
  simpl Util.as_delayed_signal. cbv beta iota.
  now rewrite (linalg_norm_raise grid xs H).
Qed.

Lemma point_raise_empty xs fs off t grid c S :
  grid_shape grid = Some S ->
  point defs_c xs (Signal [] fs off) t grid c
  = Raise (ValueError "array of sample points is empty").
Proof.
  intro HS.
  destruct (linalg_norm_ok grid xs S HS) as (r & Hr & _).
  unfold point. simpl Util.as_delayed_signal. cbv beta iota.
  rewrite Hr. reflexivity.
Qed.

(** It returns one only then. *)
Lemma point_inv xs sig t grid c f :
  point defs_c xs sig t grid c = Ok f ->
  grid_shape grid = Some (shape f) /\ signal_data sig <> [].
Proof.
  intro H. destruct (grid_shape grid) as [S|] eqn:HS.
  - destruct sig as [[|d data] fs off].
    + rewrite (point_raise_empty xs fs off t grid c S HS) in H. discriminate.
    + destruct (point_ok xs (Signal (d :: data) fs off) t grid c S HS)
        as (f' & Hf' & Hsh & _); [discriminate|].
      rewrite Hf' in H. injection H as <-.
      split; [now rewrite Hsh | discriminate].
  - rewrite (point_raise_grid xs sig t grid c HS) in H. discriminate.
Qed.

Lemma point_get xs sig t grid c f idx :
  point defs_c xs sig t grid c = Ok f ->
  get f idx = point_value defs_c xs sig t c (grid_point grid idx).
Proof.
  intro Hf. destruct (point_inv _ _ _ _ _ _ Hf) as [HS Hd].
  destruct (point_ok xs sig t grid c (shape f) HS Hd) as (f' & Hf' & _ & Hget).
  rewrite Hf in Hf'. injection Hf' as <-. apply Hget.
Qed.

End PointFacts.

(** ** Interpolation on the time axis of a signal *)

Section InterpFacts.

Lemma nth_arange_div N fs k :
  (k < N)%nat -> nth k (Np.arange_div N fs) 0 = sample_time fs k.
Proof.
  intro H. unfold Np.arange_div, sample_time.
  rewrite (nth_indep _ 0 (of_nat 0 / fs))
    by (rewrite length_map, length_seq; exact H).
  rewrite (map_nth (fun k => of_nat k / fs)), seq_nth by exact H.
  reflexivity.
Qed.

Lemma length_arange_div N fs : length (Np.arange_div N fs) = N.
Proof. unfold Np.arange_div. now rewrite length_map, length_seq. Qed.

Lemma nth_tl {A} (l : list A) k d : nth k (tl l) d = nth (S k) l d.
Proof. destruct l; [destruct k|]; reflexivity. Qed.

(** The scan stops at the first sample point that is not below the key. *)
Lemma linear_search_spec key arr i0 :
  let i := Np.linear_search key arr i0 in
  (i0 <= i <= i0 + length arr)%nat
  /\ (forall k, (k < i - i0)%nat -> (nth k arr 0 <=? key) = true)
  /\ ((i - i0 < length arr)%nat -> (nth (i - i0) arr 0 <=? key) = false).
Proof.
  revert i0. induction arr as [|a arr IH]; intro i0; simpl.
  - rewrite Nat.sub_diag. repeat split; try lia.
  - destruct (a <=? key) eqn:E.
    + destruct (IH (S i0)) as (Hb & Hlt & Hstop).
      set (i := Np.linear_search key arr (S i0)) in *.
      split; [lia|]. split.
      * intros k Hk. destruct k as [|k]; [exact E|]. apply Hlt. lia.
      * intro Hi. replace (i - i0)%nat with (S (i - S i0)) by lia.
        apply Hstop. lia.
    + rewrite Nat.sub_diag. repeat split; try lia. intros _. exact E.
Qed.

Lemma sample_time_not_nan fs k :
  (0 <? fs) = true -> is_finite fs = true -> is_nan (sample_time fs k) = false.
Proof.
  intros Hpos Hfin. unfold sample_time.
  apply fdiv_not_nan; auto using of_nat_not_nan, ltb_zero_not_zero.
Qed.

(** numpy's value on a segment is the value of the line, when that is a
    number. *)
Lemma segment_linear x0 y0 x1 y1 x :
  is_nan (linear_interpolant x0 y0 x1 y1 x) = false ->
  Np.segment x0 y0 x1 y1 x = linear_interpolant x0 y0 x1 y1 x.
Proof.
  unfold Np.segment, linear_interpolant. intro H.
  rewrite (fmul_comm ((y1 - y0) / (x1 - x0)) (x - x0)).
  rewrite (fadd_comm ((x - x0) * ((y1 - y0) / (x1 - x0))) y0).
  now rewrite H.
Qed.

(** On the time axis of a signal, [np.interp] with zero for both sides
    returns the interpolated signal. *)
Lemma interp_one_interpolated data fs t :
  data <> [] -> (0 <? fs) = true -> is_finite fs = true -> is_nan t = false ->
  interpolated data fs t
    (Np.interp_one (Np.arange_div (length data) fs) data 0 0 t).
Proof.
  intros Hd Hpos Hfin Ht.
  assert (HN : (0 < length data)%nat)
    by (destruct data; [contradiction|simpl; lia]).
  assert (Hst : forall k, is_nan (sample_time fs k) = false)
    by (intro k; now apply sample_time_not_nan).
  unfold Np.interp_one. rewrite length_arange_div.
  destruct (Nat.eqb_spec (length data) 1) as [H1|H1].
  - (* a single sample *)
    rewrite nth_arange_div by lia.
    destruct (t <? sample_time fs 0) eqn:E1; [now apply interpolated_before|].
    destruct (sample_time fs 0 <? t) eqn:E2.
    { apply interpolated_after. rewrite H1. exact E2. }
    apply (interpolated_on_sample data fs t 0); [lia|].
    apply leb_not_ltb_eqb; [|exact E2].
    apply ltb_false_leb; auto.
  - rewrite Ht. unfold Np.binary_search_with_guess.
    rewrite length_arange_div, !nth_arange_div by lia.
    destruct (sample_time fs (length data - 1) <? t) eqn:E1.
    { (* after the last sample *)
      replace (Z.of_nat (length data) =? -1)%Z with false
        by (symmetry; apply Z.eqb_neq; lia).
      rewrite Z.eqb_refl. now apply interpolated_after. }
    destruct (t <? sample_time fs 0) eqn:E2.
    { (* before the first sample *)
      simpl. now apply interpolated_before. }
    destruct (linear_search_spec t (tl (Np.arange_div (length data) fs)) 1)
      as (Hb & Hlt & Hstop).
    set (i := Np.linear_search t (tl (Np.arange_div (length data) fs)) 1) in *.
    assert (Hlen : length (tl (Np.arange_div (length data) fs))
                   = (length data - 1)%nat).
    { pose proof (length_arange_div (length data) fs) as L.
      destruct (Np.arange_div (length data) fs); simpl in *; lia. }
    rewrite Hlen in Hb, Hstop.
    replace (Z.of_nat i - 1 =? -1)%Z with false
      by (symmetry; apply Z.eqb_neq; lia).
    replace (Z.of_nat i - 1 =? Z.of_nat (length data))%Z with false
      by (symmetry; apply Z.eqb_neq; lia).
    replace (Z.to_nat (Z.of_nat i - 1)) with (i - 1)%nat by lia.
    assert (Hle : (sample_time fs (i - 1) <=? t) = true).
    { destruct (Nat.eq_dec i 1) as [->|Hi].
      - simpl. apply ltb_false_leb; auto.
      - specialize (Hlt (i - 2)%nat ltac:(lia)).
        rewrite nth_tl, nth_arange_div in Hlt by lia.
        replace (S (i - 2)) with (i - 1)%nat in Hlt by lia. exact Hlt. }
    destruct (Nat.eqb_spec (i - 1) (length data - 1)) as [Hj|Hj].
    + (* on the last sample *)
      apply interpolated_on_sample; [lia|].
      apply leb_not_ltb_eqb; [exact Hle|]. rewrite Hj. exact E1.
    + rewrite nth_arange_div by lia.
      destruct (sample_time fs (i - 1) =? t) eqn:E3.
      { apply interpolated_on_sample; [lia|exact E3]. }
      rewrite nth_arange_div by lia.
      apply (interpolated_between data fs t (i - 1)); [lia|exact Hle| |].
      * specialize (Hstop ltac:(lia)).
        rewrite nth_tl, nth_arange_div in Hstop by lia.
        apply leb_false_ltb; auto.
      * intros line Hline. now apply segment_linear.
Qed.

(** Before the first sample and after the last, [np.interp] returns the
    values given for the two sides. *)
Lemma interp_one_outside xp fp lval rval t :
  xp <> [] ->
  (t <? nth 0 xp 0) = true \/ (nth (length xp - 1) xp 0 <? t) = true ->
  Np.interp_one xp fp lval rval t = lval
  \/ Np.interp_one xp fp lval rval t = rval.
Proof.
  intros Hxp H. unfold Np.interp_one.
  assert (Ht : is_nan t = false)
    by (destruct H as [H|H]; apply ltb_not_nan in H; tauto).
  destruct (Nat.eqb_spec (length xp) 1) as [H1|H1].
  - rewrite H1 in H. simpl in H.
    destruct (t <? nth 0 xp 0); [now left|].
    destruct H as [H|H]; [discriminate|]. rewrite H. now right.
  - rewrite Ht. unfold Np.binary_search_with_guess.
    assert (0 < length xp)%nat by (destruct xp; [contradiction|simpl; lia]).
    destruct (nth (length xp - 1) xp 0 <? t) eqn:E1.
    { replace (Z.of_nat (length xp) =? -1)%Z with false
        by (symmetry; apply Z.eqb_neq; lia).
      rewrite Z.eqb_refl. now right. }
    destruct H as [H|H]; [|discriminate]. rewrite H. now left.
Qed.

End InterpFacts.

(** ** Distance and weight at the source *)



(** ** Source strengths *)

Section StrengthFacts.

Variable fpow : float -> Z -> float.

Lemma fold_left_map_arg {A B C} (f : A -> C -> A) (g : B -> C) l a :
  fold_left f (List.map g l) a = fold_left (fun a x => f a (g x)) l a.
Proof. revert a. induction l as [|x l IH]; intro a; simpl; auto. Qed.


(** The product along a row of [coeffs ** order], by index. *)
Lemma row_product_formula coeffs row acc :
  length row = length coeffs ->
  fold_left mul
    (List.map (fun ck => fpow (fst ck) (snd ck)) (combine coeffs row)) acc
  = fold_left
      (fun acc axis => acc * fpow (nth axis coeffs 0) (nth axis row 0%Z))
      (seq 0 (length coeffs)) acc.
Proof.
  revert row acc. induction coeffs as [|c cs IH]; intros row acc H.
  - reflexivity.
  - destruct row as [|k row]; [discriminate|]. injection H as H.
    cbn [combine List.map length seq fold_left nth fst snd].
    rewrite <- seq_shift.
    rewrite (fold_left_map_arg
               (fun acc axis =>
                  acc * fpow (nth axis (c :: cs) 0)
                             (nth axis (k :: row) 0%Z)) S).
    cbn [nth]. now apply IH.
Qed.

Lemma source_strengths_formula coeffs order :
  wf_matrix order -> ncols order = length coeffs ->
  source_strengths fpow coeffs order
  = Ok (List.map (strength_formula fpow coeffs) (rows order)).
Proof.
  intros Hwf Hn. unfold source_strengths, power.
  rewrite Hn, Nat.eqb_refl. simpl. f_equal. unfold prod_axis1.
  rewrite map_map. apply map_ext_in. intros row Hrow.
  unfold wf_matrix in Hwf. rewrite Forall_forall in Hwf.
  apply row_product_formula. rewrite (Hwf row Hrow). exact Hn.
Qed.

Lemma nth_strengths cs (rws : list (list Z)) i :
  (i < length rws)%nat ->
  nth i (List.map (strength_formula fpow cs) rws) 0
  = strength_formula fpow cs (nth i rws []).
Proof.
  intro Hi.
  rewrite (nth_indep _ 0 (strength_formula fpow cs []))
    by (rewrite length_map; exact Hi).
  apply map_nth.
Qed.




Lemma product_of_ones {A} (l : list A) (g : A -> float) :
  (forall x, In x l -> g x = 1) ->
  fold_left (fun acc x => acc * g x) l 1 = 1.
Proof.
  induction l as [|x l IH]; intro H; simpl; [reflexivity|].
  rewrite (H x (or_introl eq_refl)).
  change (1 * 1) with 1. apply IH. intros y Hy. apply H. now right.
Qed.

(** The real source, which hits no wall, has strength one. *)
Lemma strength_formula_zero_order coeffs row :
  (forall x, fpow x 0 = 1) -> (forall axis, nth axis row 0%Z = 0%Z) ->
  strength_formula fpow coeffs row = 1.
Proof.
  intros Hp0 Hrow. unfold strength_formula.
  apply product_of_ones. intros axis _. now rewrite Hrow.
Qed.

(** With coefficients one, every image has strength one. *)
Lemma strength_formula_ones n row :
  (forall k, fpow 1 k = 1) -> strength_formula fpow (Np.ones n) row = 1.
Proof.
  intros Hp1. unfold strength_formula, Np.ones.
  apply product_of_ones. intros axis Hin.
  rewrite repeat_length in Hin. apply in_seq in Hin.
  rewrite (nth_indep _ 0 1) by (rewrite repeat_length; lia).
  now rewrite nth_repeat.
Qed.



End StrengthFacts.

(** ** The superposition loop *)

Section SuperposeFacts.

Variable defs_c : float.
Variables (sig : signal) (t : float) (grid : xyz) (c : option float).

(** The loop is the sum over the images it does not skip. *)
Lemma superpose_naive_sum images p :
  superpose defs_c sig t grid c p images
  = naive_sum defs_c sig t grid c p (filter contributes images).
Proof.
  revert p. induction images as [|[pos s] images IH]; intro p; [reflexivity|].
  simpl. unfold contributes at 1. simpl snd.
  destruct (neqb s 0); [|apply IH].
  simpl. destruct (point defs_c pos sig t grid c) as [f|e]; [|reflexivity].
  simpl. destruct (py_iadd p (Np.map (mul s) f)) as [p'|e]; [|reflexivity].
  simpl. apply IH.
Qed.

Lemma iadd_same_shape a f :
  shape f = shape a ->
  Np.iadd a f
  = Ok {| shape := shape a;
          get := fun idx => get a idx + get f (Np.project (shape f) idx) |}.
Proof.
  intro H. unfold Np.iadd. rewrite H, broadcast_shapes_diag.
  destruct (list_eq_dec Nat.eq_dec (shape a) (shape a)); [reflexivity|].
  contradiction.
Qed.

(** Adding a field of the grid's shape gives an array of that shape. *)
Lemma py_iadd_value S p f :
  shape_ok S p -> shape f = S ->
  (forall idx, get f (Np.project S idx) = get f idx) ->
  exists a, py_iadd p f = Ok (PArr a)
            /\ shape a = S
            /\ forall idx, get a idx = value_at p idx + get f idx.
Proof.
  intros Hp Hf Hproj. destruct p as [z|a]; simpl in *.
  - eexists. split; [reflexivity|]. split; [exact Hf|]. reflexivity.
  - rewrite iadd_same_shape by congruence. simpl.
    eexists. split; [reflexivity|]. split; [exact Hp|].
    intro idx. simpl. now rewrite Hf, Hproj.
Qed.

(** Where [point] returns fields, the sum over every image returns the
    array of the sums at each index. *)
Lemma naive_sum_ok S images p :
  grid_shape grid = Some S -> signal_data sig <> [] -> shape_ok S p ->
  exists p', naive_sum defs_c sig t grid c p images = Ok p'
             /\ shape_ok S p'
             /\ (images = [] -> p' = p)
             /\ (images <> [] -> exists a, p' = PArr a)
             /\ forall idx,
                 value_at p' idx
                 = sum_at defs_c sig t grid c idx images (value_at p idx).
Proof.
  intros HS Hd. revert p.
  induction images as [|[pos s] images IH]; intros p Hp.
  - exists p. repeat split; auto. intro H. contradiction.
  - destruct (point_ok defs_c pos sig t grid c S HS Hd)
      as (f & Hf & Hsh & Hget).
    destruct (py_iadd_value S p (Np.map (mul s) f) Hp Hsh)
      as (a & Ha & Hsa & Hva).
    { intro idx. simpl.
      now rewrite !Hget, (grid_point_project grid S idx HS). }
    destruct (IH (PArr a) Hsa) as (p' & Hp' & Hok & Hnil & Hcons & Hval).
    exists p'. simpl naive_sum. rewrite Hf. simpl bind. rewrite Ha. simpl bind.
    split; [exact Hp'|]. split; [exact Hok|]. split; [discriminate|]. split.
    + intros _. destruct images as [|i images].
      * exists a. now apply Hnil.
      * apply Hcons. discriminate.
    + intro idx. rewrite Hval. simpl value_at. rewrite Hva. simpl Np.map.
      simpl get. rewrite Hget. reflexivity.
Qed.


Lemma py_iadd_equiv p q f g :
  py_equiv eq p q -> nd_equiv eq f g ->
  match py_iadd p f, py_iadd q g with
  | Ok p', Ok q' => py_equiv eq p' q'
  | Raise e, Raise e' => e = e'
  | _, _ => False
  end.
Proof.
  intros Hpq [Hs Hv]. destruct p as [z|a], q as [z'|b]; simpl in Hpq;
    try contradiction.
  - subst z'. simpl. split; [exact Hs|]. intro idx. simpl. now rewrite Hv.
  - destruct Hpq as [Hsab Hvab]. simpl. unfold Np.iadd.
    rewrite <- Hsab, <- Hs.
    destruct (Np.broadcast_shapes (shape a) (shape f)) as [sh|]; [|reflexivity].
    destruct (list_eq_dec Nat.eq_dec sh (shape a)); [|reflexivity].
    simpl. split; [reflexivity|]. intro idx. simpl. now rewrite Hvab, Hv.
Qed.

(** With every strength one, the weighted sum is the plain sum. *)
Lemma naive_sum_unit_direct_sum positions p q :
  py_equiv eq p q ->
  result_equiv eq
    (naive_sum defs_c sig t grid c p (List.map (fun pos => (pos, 1)) positions))
    (direct_sum defs_c sig t grid c q positions).
Proof.
  revert p q. induction positions as [|pos positions IH]; intros p q Hpq.
  - exact Hpq.
  - simpl. destruct (point defs_c pos sig t grid c) as [f|e]; [|reflexivity].
    simpl.
    assert (Hf : nd_equiv eq (Np.map (mul 1) f) f).
    { split; [reflexivity|]. intro idx. simpl. apply fmul_1_l. }
    pose proof (py_iadd_equiv p q _ _ Hpq Hf) as H.
    destruct (py_iadd p (Np.map (mul 1) f)) as [p'|e],
             (py_iadd q f) as [q'|e']; simpl; try contradiction; auto.
Qed.

End SuperposeFacts.

Lemma combine_constant {A B} (l : list A) (l' : list B) (b : float) :
  length l' = length l ->
  combine l (List.map (fun _ => b) l') = List.map (fun a => (a, b)) l.
Proof.
  revert l'. induction l as [|a l IH]; intros [|a' l'] H; simpl;
    try discriminate; [reflexivity|].
  f_equal. apply IH. now injection H.
Qed.

Lemma filter_contributes_unit (positions : list vec3) :
  filter contributes (List.map (fun pos => (pos, 1)) positions)
  = List.map (fun pos => (pos, 1)) positions.
Proof.
  induction positions as [|pos l IH]; [reflexivity|].
  simpl. change (contributes (pos, 1)) with true. cbv iota. now rewrite IH.
Qed.

(** ** The power used in the examples *)

Import Examples.

Lemma pow_mul_zero_exponent x : pow_mul x 0 = 1.
Proof. reflexivity. Qed.

Lemma pow_mul_one k : pow_mul 1 k = 1.
Proof.
  assert (H : forall p, Pos.iter (mul 1) 1 p = 1).
  { intro p. apply Pos.iter_invariant; [|reflexivity].
    intros x ->. reflexivity. }
  destruct k as [|p|p]; simpl; rewrite ?H; reflexivity.
Qed.


(** ** Further facts of binary64 arithmetic *)

Module F64More.

Lemma fsub_0_r x : x - 0 = x.
Proof.
  apply Prim2SF_inj. rewrite sub_spec. change (Prim2SF 0) with (S754_zero false).
  destruct (Prim2SF x) as [[|]|[|]| |s m e]; reflexivity.
Qed.

Lemma binary_round_aux_opp s m e l :
  binary_round_aux prec emax (negb s) m e l
  = SFopp (binary_round_aux prec emax s m e l).
Proof.
  unfold binary_round_aux.
  destruct (shr_fexp prec emax m e l) as [mrs' e'].
  destruct (shr_fexp prec emax _ e' loc_Exact) as [mrs'' e''].
  destruct (shr_m mrs''); try reflexivity.
  destruct (_ <=? _)%Z; reflexivity.
Qed.

Lemma binary_normalize_opp m e :
  m <> 0%Z ->
  binary_normalize prec emax (- m) e false
  = SFopp (binary_normalize prec emax m e false).
Proof.
  intro H. destruct m as [|p|p]; [contradiction| |]; simpl; unfold binary_round;
    destruct (shl_align _ _ _) as [mz ez].
  - apply (binary_round_aux_opp false).
  - rewrite (binary_round_aux_opp true). simpl.
    now destruct (binary_round_aux prec emax true (Z.pos mz) ez loc_Exact).
Qed.

(** b - a is the opposite of a - b, or both are zeros. *)
Lemma SFsub_swap x y :
  SF64sub y x = SFopp (SF64sub x y)
  \/ (exists s s', SF64sub x y = S754_zero s /\ SF64sub y x = S754_zero s').
Proof.
  destruct x as [sx|sx| |sx mx ex], y as [sy|sy| |sy my ey];
    try (left; reflexivity);
    try (left; destruct sx, sy; reflexivity);
    try (left; destruct sx; reflexivity);
    try (left; destruct sy; reflexivity).
  - right. destruct sx, sy; simpl; eauto.
  - unfold SF64sub, SFsub. zfold. rewrite (Z.min_comm ey ex).
    set (A := SpecFloat.cond_Zopp sx (Z.pos (fst (shl_align mx ex (Z.min ex ey))))).
    set (B := SpecFloat.cond_Zopp sy (Z.pos (fst (shl_align my ey (Z.min ex ey))))).
    destruct (Z.eq_dec (A - B) 0) as [E|E].
    + right. replace (B - A)%Z with 0%Z by lia. rewrite E. simpl. eauto.
    + left. replace (B - A)%Z with (- (A - B))%Z by lia.
      now apply binary_normalize_opp.
Qed.

Lemma SFmul_opp_opp x : SF64mul (SFopp x) (SFopp x) = SF64mul x x.
Proof. destruct x as [[|]|[|]| |[|] m e]; reflexivity. Qed.

(** The square of a difference does not depend on its direction. *)
Lemma fsq_sub_swap a b : (a - b) * (a - b) = (b - a) * (b - a).
Proof.
  apply Prim2SF_inj. rewrite !mul_spec, !sub_spec.
  destruct (SFsub_swap (Prim2SF a) (Prim2SF b)) as [H|(s & s' & H & H')].
  - rewrite H. symmetry. apply SFmul_opp_opp.
  - rewrite H, H'. destruct s, s'; reflexivity.
Qed.

End F64More.

Import F64More.

Module F64Signs.

Lemma fadd_zero_zero a b :
  is_zero a = true -> is_zero b = true -> is_zero (a + b) = true.
Proof.
  spec_unfold. destruct (Prim2SF a) as [[|]| | |], (Prim2SF b) as [[|]| | |];
    try discriminate; reflexivity.
Qed.

Lemma fmul_nan_l s x : is_nan s = true -> is_nan (s * x) = true.
Proof.
  spec_unfold. destruct (Prim2SF s), (Prim2SF x); try discriminate; reflexivity.
Qed.

Lemma fadd_nan_l a x : is_nan a = true -> is_nan (a + x) = true.
Proof.
  spec_unfold. destruct (Prim2SF a), (Prim2SF x); try discriminate; reflexivity.
Qed.

Lemma fadd_nan_r a x : is_nan x = true -> is_nan (a + x) = true.
Proof.
  spec_unfold. destruct (Prim2SF a), (Prim2SF x); try discriminate; reflexivity.
Qed.

Lemma neqb_nan s : is_nan s = true -> neqb s 0 = true.
Proof.
  spec_unfold. unfold SFeqb. destruct (Prim2SF s); try discriminate. reflexivity.
Qed.

Lemma zero_ltb_zero a b :
  is_zero a = true -> is_zero b = true -> (a <? b) = false.
Proof.
  spec_unfold. destruct (Prim2SF a), (Prim2SF b); try discriminate; reflexivity.
Qed.

Lemma zero_eqb_zero a b :
  is_zero a = true -> is_zero b = true -> (a =? b) = true.
Proof.
  spec_unfold. destruct (Prim2SF a), (Prim2SF b); try discriminate; reflexivity.
Qed.

Lemma positive_leb_zero x z :
  (0 <? x) = true -> is_zero z = true -> (x <=? z) = false.
Proof.
  spec_unfold. change (Prim2SF 0) with (S754_zero false).
  destruct (Prim2SF x) as [|[|]| |[|]], (Prim2SF z); try discriminate; reflexivity.
Qed.

Lemma binary_round_aux_sign s m e l :
  match binary_round_aux prec emax s m e l with
  | S754_zero s' | S754_infinity s' | S754_finite s' _ _ => s' = s
  | S754_nan => True
  end.
Proof.
  unfold binary_round_aux.
  destruct (shr_fexp prec emax m e l) as [mrs' e'].
  destruct (shr_fexp prec emax _ e' loc_Exact) as [mrs'' e''].
  destruct (shr_m mrs''); auto.
  destruct (_ <=? _)%Z; auto.
Qed.

Lemma of_nat_sign k :
  match Prim2SF (of_nat k) with
  | S754_zero s | S754_infinity s | S754_finite s _ _ => s = false
  | S754_nan => True
  end.
Proof.
  unfold of_nat. rewrite of_uint63_spec.
  pose proof (Uint63.to_Z_bounded (Uint63.of_Z (Z.of_nat k))) as B.
  change Uint63Axioms.to_Z with Uint63.to_Z.
  destruct (Uint63.to_Z (Uint63.of_Z (Z.of_nat k))) as [|p|p]; simpl; auto;
    [|lia].
  unfold binary_round. destruct (shl_align _ _ _) as [mz ez].
  apply binary_round_aux_sign.
Qed.

(** No sample of a signal with a positive rate is at a negative time. *)
Lemma sample_time_ltb_zero fs k z :
  (0 <? fs) = true -> is_finite fs = true -> is_zero z = true ->
  (sample_time fs k <? z) = false.
Proof.
  intros Hpos Hfin Hz. unfold sample_time.
  pose proof (of_nat_sign k) as Hs.
  revert Hpos Hfin Hz. spec_unfold. change (Prim2SF 0) with (S754_zero false).
  destruct (Prim2SF z) as [sz| | |]; try discriminate.
  destruct (Prim2SF fs) as [|[|]| |[|] mf ef]; try discriminate. intros _ _ _.
  destruct (Prim2SF (of_nat k)) as [s|s| |s mk ek]; try subst s; try reflexivity.
  unfold SF64div, SFdiv.
  destruct (SFdiv_core_binary prec emax (Z.pos mk) ek (Z.pos mf) ef)
    as [[mz ez] lz].
  pose proof (binary_round_aux_sign (xorb false false) mz ez lz) as H.
  destruct (binary_round_aux prec emax (xorb false false) mz ez lz);
    try subst s; reflexivity.
Qed.

Lemma sample_time_0_zero fs :
  (0 <? fs) = true -> is_finite fs = true -> is_zero (sample_time fs 0) = true.
Proof.
  unfold sample_time. change (of_nat 0) with 0.
  spec_unfold. change (Prim2SF 0) with (S754_zero false).
  destruct (Prim2SF fs) as [|[|]| |[|] mf ef]; try discriminate; reflexivity.
Qed.

End F64Signs.

Import F64Signs.

Module F64Order.

Lemma SFeqb_finite_eq s1 m1 e1 s2 m2 e2 :
  SFeqb (S754_finite s1 m1 e1) (S754_finite s2 m2 e2) = true ->
  S754_finite s1 m1 e1 = S754_finite s2 m2 e2.
Proof.
  unfold SFeqb, SFcompare. zfold.
  change (PosDef.Pos.compare_cont Eq m1 m2) with (Pos.compare m1 m2).
  destruct s1, s2; try discriminate;
    destruct (Z.compare_spec e1 e2); try discriminate;
    destruct (Pos.compare_spec m1 m2); try discriminate;
    intros _; subst; reflexivity.
Qed.

Lemma SFeqb_compare_r x y z :
  SFeqb x y = true -> SFcompare z x = SFcompare z y.
Proof.
  intro H.
  destruct x as [sx|sx| |sx mx ex], y as [sy|sy| |sy my ey];
    try discriminate H;
    try (destruct sx, sy; try discriminate H; reflexivity);
    try (destruct z as [| | |]; reflexivity);
    try (destruct sx; discriminate H); try (destruct sy; discriminate H).
  now rewrite (SFeqb_finite_eq _ _ _ _ _ _ H).
Qed.

Lemma SFeqb_compare_l x y z :
  SFeqb x y = true -> SFcompare x z = SFcompare y z.
Proof.
  intro H. rewrite (SFcompare_antisym z x), (SFcompare_antisym z y).
  now rewrite (SFeqb_compare_r x y z H).
Qed.

Lemma eqb_ltb_r a b c : (a =? b) = true -> (c <? a) = (c <? b).
Proof.
  spec_unfold. intro H. unfold SFltb. now rewrite (SFeqb_compare_r _ _ _ H).
Qed.

Lemma eqb_ltb_l a b c : (a =? b) = true -> (a <? c) = (b <? c).
Proof.
  spec_unfold. intro H. unfold SFltb. now rewrite (SFeqb_compare_l _ _ _ H).
Qed.

Lemma eqb_leb_r a b c : (a =? b) = true -> (c <=? a) = (c <=? b).
Proof.
  spec_unfold. intro H. unfold SFleb. now rewrite (SFeqb_compare_r _ _ _ H).
Qed.

Lemma eqb_not_nan_r a b : (a =? b) = true -> is_nan b = false.
Proof.
  spec_unfold. unfold SFeqb.
  destruct (Prim2SF a), (Prim2SF b); simpl; auto; discriminate.
Qed.

Lemma eqb_ltb_false a b : (a =? b) = true -> (a <? b) = false.
Proof.
  spec_unfold. unfold SFeqb, SFltb.
  now destruct (SFcompare (Prim2SF a) (Prim2SF b)) as [[]|].
Qed.

Lemma eqb_leb_true a b : (a =? b) = true -> (a <=? b) = true.
Proof.
  spec_unfold. unfold SFeqb, SFleb.
  now destruct (SFcompare (Prim2SF a) (Prim2SF b)) as [[]|].
Qed.

Lemma ltb_leb_true a b : (a <? b) = true -> (a <=? b) = true.
Proof.
  spec_unfold. unfold SFltb, SFleb.
  now destruct (SFcompare (Prim2SF a) (Prim2SF b)) as [[]|].
Qed.

Lemma ltb_leb_false a b : (a <? b) = true -> (b <=? a) = false.
Proof.
  spec_unfold. unfold SFltb, SFleb.
  rewrite (SFcompare_antisym (Prim2SF a) (Prim2SF b)).
  now destruct (SFcompare (Prim2SF a) (Prim2SF b)) as [[]|].
Qed.

Lemma ltb_asym a b : (a <? b) = true -> (b <? a) = false.
Proof.
  spec_unfold. unfold SFltb.
  rewrite (SFcompare_antisym (Prim2SF a) (Prim2SF b)).
  now destruct (SFcompare (Prim2SF a) (Prim2SF b)) as [[]|].
Qed.

End F64Order.

Import F64Order.

(** *** The range of rounded results *)

Module F64Range.

(** The number of binary digits of a positive integer bounds it. *)
Lemma digits2_pos_bounds p :
  (2 ^ (Z.pos (digits2_pos p) - 1) <= Z.pos p < 2 ^ Z.pos (digits2_pos p))%Z.
Proof.
  induction p as [p IH|p IH|]; cbn [digits2_pos].
  - rewrite Pos2Z.inj_succ.
    replace (Z.succ (Z.pos (digits2_pos p)) - 1)%Z
      with (Z.succ (Z.pos (digits2_pos p) - 1)) by lia.
    rewrite !Z.pow_succ_r by lia. lia.
  - rewrite Pos2Z.inj_succ.
    replace (Z.succ (Z.pos (digits2_pos p)) - 1)%Z
      with (Z.succ (Z.pos (digits2_pos p) - 1)) by lia.
    rewrite !Z.pow_succ_r by lia. lia.
  - simpl. lia.
Qed.



Lemma Zdigits2_upper m k :
  (0 <= k)%Z -> (0 <= m < 2 ^ k)%Z -> (Zdigits2 m <= k)%Z.
Proof.
  intros Hk [Hm Hlt]. destruct m as [|p|p]; simpl; try lia.
  destruct (Z.le_gt_cases (Z.pos (digits2_pos p)) k) as [H|H]; [exact H|].
  pose proof (digits2_pos_bounds p) as [Hlo _].
  assert (2 ^ k <= 2 ^ (Z.pos (digits2_pos p) - 1))%Z
    by (apply Z.pow_le_mono_r; lia).
  lia.
Qed.

(** Shifting right halves the mantissa. *)
Lemma shr_1_div2 mrs :
  (0 <= shr_m mrs)%Z -> shr_m (shr_1 mrs) = (shr_m mrs / 2)%Z.
Proof.
  destruct mrs as [m r s]. destruct m as [|[p|p|]|p]; simpl; intro H;
    try lia; try reflexivity.
  - rewrite Pos2Z.inj_xI. apply Z.div_unique with 1%Z; lia.
  - rewrite Pos2Z.inj_xO. apply Z.div_unique with 0%Z; lia.
Qed.

Lemma pow2_xI n : (2 ^ Z.pos n~1 = 2 * (2 ^ Z.pos n * 2 ^ Z.pos n))%Z.
Proof.
  rewrite (Pos2Z.inj_xI n).
  replace (2 * Z.pos n + 1)%Z with (1 + (Z.pos n + Z.pos n))%Z by lia.
  rewrite Z.pow_add_r by lia. rewrite Z.pow_add_r by lia. reflexivity.
Qed.

Lemma pow2_xO n : (2 ^ Z.pos n~0 = 2 ^ Z.pos n * 2 ^ Z.pos n)%Z.
Proof.
  rewrite (Pos2Z.inj_xO n).
  replace (2 * Z.pos n)%Z with (Z.pos n + Z.pos n)%Z by lia.
  now rewrite Z.pow_add_r by lia.
Qed.

Lemma iter_shr_1 n mrs :
  (0 <= shr_m mrs)%Z ->
  shr_m (SpecFloat.iter_pos shr_1 n mrs) = (shr_m mrs / 2 ^ Z.pos n)%Z.
Proof.
  revert mrs.
  induction n as [n IH|n IH|]; intros mrs H; cbn [SpecFloat.iter_pos].
  - assert (H1 : (0 <= shr_m (shr_1 mrs))%Z) by now apply shr_1_nonneg.
    assert (H2 : (0 <= shr_m (SpecFloat.iter_pos shr_1 n (shr_1 mrs)))%Z)
      by (apply iter_pos_inv; auto using shr_1_nonneg).
    assert (Hp : (0 < 2 ^ Z.pos n)%Z) by (apply Z.pow_pos_nonneg; lia).
    rewrite IH, IH, shr_1_div2 by assumption.
    rewrite pow2_xI, !Z.div_div by lia. reflexivity.
  - assert (H2 : (0 <= shr_m (SpecFloat.iter_pos shr_1 n mrs))%Z)
      by (apply iter_pos_inv; auto using shr_1_nonneg).
    assert (Hp : (0 < 2 ^ Z.pos n)%Z) by (apply Z.pow_pos_nonneg; lia).
    rewrite IH, IH by assumption.
    rewrite pow2_xO, !Z.div_div by lia. reflexivity.
  - now apply shr_1_div2.
Qed.

(** [shr_fexp] shifts by the distance to the exponent of the format. *)
Lemma shr_fexp_spec m e l :
  (0 <= m)%Z ->
  let n := Z.max (fexp prec emax (Zdigits2 m + e) - e) 0 in
  snd (shr_fexp prec emax m e l) = (e + n)%Z
  /\ shr_m (fst (shr_fexp prec emax m e l)) = (m / 2 ^ n)%Z.
Proof.
  intros Hm n. unfold shr_fexp, shr. zfold. subst n.
  assert (H0 : shr_m (shr_record_of_loc m l) = m) by (destruct l as [|[]]; reflexivity).
  destruct (fexp prec emax (Zdigits2 m + e) - e)%Z as [|p|p] eqn:E; cbn [fst snd].
  - rewrite H0. simpl. split; [lia|]. now rewrite Z.div_1_r.
  - rewrite iter_shr_1 by lia. rewrite H0.
    replace (Z.max (Z.pos p) 0) with (Z.pos p) by lia. split; reflexivity.
  - rewrite H0. replace (Z.max (Z.neg p) 0) with 0%Z by lia.
    simpl. split; [lia|]. now rewrite Z.div_1_r.
Qed.

Lemma round_nearest_even_bounds m l :
  (m <= round_nearest_even m l <= m + 1)%Z.
Proof.
  destruct l as [|[]]; simpl; zfold; try lia. destruct (Z.even m); lia.
Qed.




(** A value below 2^K, with K well under the largest exponent, does not
    overflow when it is rounded. *)
Lemma binary_round_aux_no_overflow s m e l K :
  (0 <= m < 2 ^ (K - e))%Z -> (e <= K)%Z -> (-1074 <= K <= 971)%Z ->
  forall s', binary_round_aux prec emax s m e l <> S754_infinity s'.
Proof.
  intros [Hm Hlt] HeK HK s'. unfold binary_round_aux.
  pose proof (shr_fexp_spec m e l Hm) as [He1 Hm1].
  pose proof (Zdigits2_upper m (K - e) ltac:(lia) (conj Hm Hlt)) as Hd.
  destruct (shr_fexp prec emax m e l) as [mrs1 e1]. cbn [fst snd] in *.
  set (n := Z.max (fexp prec emax (Zdigits2 m + e) - e) 0) in *.
  assert (Hn : (0 <= n)%Z) by (subst n; lia).
  assert (He1K : (e1 <= K)%Z).
  { rewrite He1. subst n. unfold fexp, SpecFloat.emin. zfold.
    change prec with 53%Z. change emax with 1024%Z. lia. }
  assert (Hb1 : (0 <= shr_m mrs1 < 2 ^ (K - e1))%Z).
  { rewrite Hm1. split; [apply Z.div_pos; [lia|apply Z.pow_pos_nonneg; lia]|].
    apply Z.div_lt_upper_bound; [apply Z.pow_pos_nonneg; lia|].
    rewrite <- Z.pow_add_r by lia.
    replace (n + (K - e1))%Z with (K - e)%Z by lia. exact Hlt. }
  set (m1 := round_nearest_even (shr_m mrs1) (loc_of_shr_record mrs1)).
  assert (Hm1r : (0 <= m1 < 2 ^ (K + 1 - e1))%Z).
  { pose proof (round_nearest_even_bounds (shr_m mrs1) (loc_of_shr_record mrs1)).
    fold m1 in H. split; [lia|].
    replace (K + 1 - e1)%Z with (Z.succ (K - e1)) by lia.
    rewrite Z.pow_succ_r by lia. lia. }
  pose proof (shr_fexp_spec m1 e1 loc_Exact ltac:(lia)) as [He2 _].
  pose proof (Zdigits2_upper m1 (K + 1 - e1) ltac:(lia) Hm1r) as Hd1.
  destruct (shr_fexp prec emax m1 e1 loc_Exact) as [mrs2 e2]. cbn [fst snd] in *.
  assert (He2K : (e2 <= 971)%Z).
  { rewrite He2. unfold fexp, SpecFloat.emin. zfold.
    change prec with 53%Z. change emax with 1024%Z. lia. }
  destruct (shr_m mrs2); try discriminate.
  change (emax - prec)%Z with 971%Z. zfold.
  apply Z.leb_le in He2K. rewrite He2K. discriminate.
Qed.

End F64Range.

Import F64Range.

Module F64Weight.





End F64Weight.

Import F64Weight.

Module F64Unit.

(** A value below 2^K is rounded to one that is at most 2^K. *)
Lemma binary_round_aux_bound s m e l K s' m' e' :
  (0 <= m < 2 ^ (K - e))%Z -> (e <= K)%Z -> (-1074 <= K)%Z ->
  binary_round_aux prec emax s m e l = S754_finite s' m' e' ->
  (e' <= K /\ Z.pos m' <= 2 ^ (K - e'))%Z.
Proof.
  intros [Hm Hlt] HeK HK. unfold binary_round_aux.
  pose proof (shr_fexp_spec m e l Hm) as [He1 Hm1].
  pose proof (Zdigits2_upper m (K - e) ltac:(lia) (conj Hm Hlt)) as Hd.
  destruct (shr_fexp prec emax m e l) as [mrs1 e1]. cbn [fst snd] in *.
  set (n := Z.max (fexp prec emax (Zdigits2 m + e) - e) 0) in *.
  assert (Hn : (0 <= n)%Z) by (subst n; lia).
  assert (He1K : (e1 <= K)%Z).
  { rewrite He1. subst n. unfold fexp, SpecFloat.emin. zfold.
    change prec with 53%Z. change emax with 1024%Z. lia. }
  assert (Hb1 : (0 <= shr_m mrs1 < 2 ^ (K - e1))%Z).
  { rewrite Hm1. split; [apply Z.div_pos; [lia|apply Z.pow_pos_nonneg; lia]|].
    apply Z.div_lt_upper_bound; [apply Z.pow_pos_nonneg; lia|].
    rewrite <- Z.pow_add_r by lia.
    replace (n + (K - e1))%Z with (K - e)%Z by lia. exact Hlt. }
  set (m1 := round_nearest_even (shr_m mrs1) (loc_of_shr_record mrs1)).
  assert (Hm1r : (0 <= m1 <= 2 ^ (K - e1))%Z).
  { pose proof (round_nearest_even_bounds (shr_m mrs1) (loc_of_shr_record mrs1)).
    fold m1 in H. lia. }
  assert (Hm1r' : (0 <= m1 < 2 ^ (K + 1 - e1))%Z).
  { split; [lia|].
    replace (K + 1 - e1)%Z with (Z.succ (K - e1)) by lia.
    rewrite Z.pow_succ_r by lia. lia. }
  pose proof (shr_fexp_spec m1 e1 loc_Exact ltac:(lia)) as [He2 Hm2].
  pose proof (Zdigits2_upper m1 (K + 1 - e1) ltac:(lia) Hm1r') as Hd1.
  destruct (shr_fexp prec emax m1 e1 loc_Exact) as [mrs2 e2]. cbn [fst snd] in *.
  set (n2 := Z.max (fexp prec emax (Zdigits2 m1 + e1) - e1) 0) in *.
  assert (Hn2 : (0 <= n2)%Z) by (subst n2; lia).
  assert (He2K : (e2 <= K)%Z).
  { rewrite He2. subst n2. unfold fexp, SpecFloat.emin. zfold.
    change prec with 53%Z. change emax with 1024%Z. lia. }
  destruct (shr_m mrs2) as [|p|p] eqn:Ep; try discriminate.
  destruct (_ <=? _)%Z; try discriminate.
  intro H. injection H as _ <- <-. split; [exact He2K|].
  rewrite Hm2.
  apply Z.div_le_upper_bound; [apply Z.pow_pos_nonneg; lia|].
  rewrite <- Z.pow_add_r by lia.
  replace (n2 + (K - e2))%Z with (K - e1)%Z by lia. lia.
Qed.

(** Positive finite numbers compare by exponent, then by mantissa. *)
Lemma SFleb_finite_pos m e m' e' :
  SFleb (S754_finite false m e) (S754_finite false m' e') = true
  <-> (e < e')%Z \/ (e = e' /\ (Z.pos m <= Z.pos m')%Z).
Proof.
  unfold SFleb, SFcompare. zfold.
  change (PosDef.Pos.compare_cont Eq m m') with (Pos.compare m m').
  destruct (Z.compare_spec e e') as [He|He|He].
  - destruct (Pos.compare_spec m m') as [Hm|Hm|Hm]; split; intro H;
      try discriminate; try reflexivity; try (right; split; lia).
    destruct H as [H|[_ H]]; lia.
  - split; [intros _; now left | reflexivity].
  - split; [discriminate | intros [H|[H _]]; lia].
Qed.

(** The IEEE-754 form of a number between 0 and 1: a zero, 1, or a
    positive number of exponent below -52. *)
Lemma in_unit_interval_form x :
  in_unit_interval x = true ->
  (exists s, Prim2SF x = S754_zero s)
  \/ x = 1
  \/ (exists m e, Prim2SF x = S754_finite false m e /\ (e <= -53)%Z).
Proof.
  unfold in_unit_interval. intro H. apply andb_prop in H. destruct H as [H0 H1].
  rewrite FloatAxioms.leb_spec in H0, H1.
  change (Prim2SF 0) with (S754_zero false) in H0.
  change (Prim2SF 1) with (S754_finite false 4503599627370496 (-52)) in H1.
  pose proof (Prim2SF_valid x) as V.
  destruct (Prim2SF x) as [s|s| |s m e] eqn:E; try discriminate.
  - left. now exists s.
  - destruct s; try discriminate.
  - destruct s; try discriminate.
    apply SFleb_finite_pos in H1. destruct H1 as [He|[He Hm]].
    + right. right. exists m, e. split; [reflexivity|lia].
    + right. left. apply Prim2SF_inj. rewrite E. subst e.
      unfold valid_binary, SpecFloat.valid_binary, bounded,
        canonical_mantissa in V.
      apply andb_prop in V. destruct V as [C _]. apply Z.eqb_eq in C.
      unfold fexp, SpecFloat.emin in C. zfold.
      change prec with 53%Z in C. change emax with 1024%Z in C.
      assert (Hd : Z.pos (digits2_pos m) = 53%Z) by (clear - C; lia).
      pose proof (digits2_pos_bounds m) as [Hlo _].
      rewrite Hd in Hlo. change (2 ^ (53 - 1))%Z with 4503599627370496%Z in Hlo.
      assert (Hm' : Z.pos m = 4503599627370496%Z) by (clear - Hlo Hm; lia).
      injection Hm' as ->. reflexivity.
Qed.

Lemma in_unit_interval_zero x : is_zero x = true -> in_unit_interval x = true.
Proof.
  unfold in_unit_interval, is_zero. rewrite !FloatAxioms.leb_spec.
  change (Prim2SF 0) with (S754_zero false).
  change (Prim2SF 1) with (S754_finite false 4503599627370496 (-52)).
  destruct (Prim2SF x); try discriminate. reflexivity.
Qed.

Lemma in_unit_interval_finite x :
  in_unit_interval x = true -> is_finite x = true.
Proof.
  intro H. unfold is_finite.
  destruct (in_unit_interval_form x H) as [[s ->]|[->|(m & e & -> & _)]];
    reflexivity.
Qed.

(** The product of two numbers between 0 and 1 is between 0 and 1. *)
Lemma fmul_unit_interval x y :
  in_unit_interval x = true -> in_unit_interval y = true ->
  in_unit_interval (x * y) = true.
Proof.
  intros Hx Hy.
  destruct (in_unit_interval_form x Hx) as [[sx Ex]|[->|(mx & ex & Ex & Hex)]].
  - apply in_unit_interval_zero, fmul_zero_finite;
      [unfold is_zero; now rewrite Ex | now apply in_unit_interval_finite].
  - now rewrite fmul_1_l.
  - destruct (in_unit_interval_form y Hy)
      as [[sy Ey]|[->|(my & ey & Ey & Hey)]].
    + apply in_unit_interval_zero, fmul_finite_zero;
        [now apply in_unit_interval_finite | unfold is_zero; now rewrite Ey].
    + now rewrite fmul_comm, fmul_1_l.
    + pose proof (Prim2SF_valid (x * y)) as V.
      pose proof (Prim2SF_valid x) as Vx. pose proof (Prim2SF_valid y) as Vy.
      rewrite Ex in Vx. rewrite Ey in Vy.
      unfold in_unit_interval. rewrite !FloatAxioms.leb_spec.
      change (Prim2SF 0) with (S754_zero false).
      change (Prim2SF 1) with (S754_finite false 4503599627370496 (-52)).
      rewrite mul_spec, Ex, Ey in *. unfold SF64mul, SFmul in *. zfold.
      unfold valid_binary, SpecFloat.valid_binary, bounded,
        canonical_mantissa in Vx, Vy.
      apply andb_prop in Vx, Vy. destruct Vx as [Cx _], Vy as [Cy _].
      apply Z.eqb_eq in Cx, Cy.
      unfold fexp, SpecFloat.emin in Cx, Cy. zfold.
      change prec with 53%Z in Cx, Cy. change emax with 1024%Z in Cx, Cy.
      pose proof (digits2_pos_bounds mx) as [_ Hmx].
      pose proof (digits2_pos_bounds my) as [_ Hmy].
      assert (Hdx : (Z.pos (digits2_pos mx) <= 53)%Z) by lia.
      assert (Hdy : (Z.pos (digits2_pos my) <= 53)%Z) by lia.
      assert (Hbx : (Z.pos mx < 2 ^ 53)%Z).
      { eapply Z.lt_le_trans; [exact Hmx|]. apply Z.pow_le_mono_r; lia. }
      assert (Hby : (Z.pos my < 2 ^ 53)%Z).
      { eapply Z.lt_le_trans; [exact Hmy|]. apply Z.pow_le_mono_r; lia. }
      assert (HM : (0 <= Z.pos (mx * my) < 2 ^ (0 - (ex + ey)))%Z).
      { split; [lia|]. rewrite Pos2Z.inj_mul.
        apply Z.lt_le_trans with (2 ^ 53 * 2 ^ 53)%Z; [nia|].
        rewrite <- Z.pow_add_r by lia. apply Z.pow_le_mono_r; lia. }
      pose proof (binary_round_aux_not_nan (xorb false false)
                    (Z.pos (mx * my)) (ex + ey) loc_Exact ltac:(lia)) as Hnn.
      pose proof (binary_round_aux_no_overflow (xorb false false)
                    (Z.pos (mx * my)) (ex + ey) loc_Exact 0 HM
                    ltac:(lia) ltac:(lia)) as Hni.
      pose proof (binary_round_aux_sign (xorb false false)
                    (Z.pos (mx * my)) (ex + ey) loc_Exact) as Hsg.
      destruct (binary_round_aux prec emax (xorb false false)
                  (Z.pos (mx * my)) (ex + ey) loc_Exact)
        as [s|s| |s m e] eqn:Er.
      * reflexivity.
      * exfalso. now apply (Hni s).
      * congruence.
      * apply (binary_round_aux_bound _ _ _ _ 0) in Er; [|exact HM|lia|lia].
        destruct Er as [He Hm].
        unfold valid_binary, SpecFloat.valid_binary, bounded,
          canonical_mantissa in V.
        apply andb_prop in V. destruct V as [C _]. apply Z.eqb_eq in C.
        unfold fexp, SpecFloat.emin in C. zfold.
        change prec with 53%Z in C. change emax with 1024%Z in C.
        pose proof (digits2_pos_bounds m) as [Hlo _].
        assert (Hs : s = false) by (simpl in Hsg; exact Hsg).
        subst s.
        apply SFleb_finite_pos.
        destruct (Z.lt_ge_cases e (-52)) as [H|H]; [now left|].
        right.
        assert (Hd : Z.pos (digits2_pos m) = 53%Z) by (clear - C H; lia).
        rewrite Hd in Hlo.
        change (2 ^ (53 - 1))%Z with 4503599627370496%Z in Hlo.
        assert (He52 : e = (-52)%Z).
        { destruct (Z.eq_dec e (-52)) as [E52|E52]; [exact E52|].
          assert (H51 : (2 ^ (0 - e) <= 2 ^ 51)%Z)
            by (apply Z.pow_le_mono_r; clear - H E52 He; lia).
          change (2 ^ 51)%Z with 2251799813685248%Z in H51.
          clear - H51 Hm Hlo. lia. }
        subst e. split; [reflexivity|].
        change (2 ^ (0 - -52))%Z with 4503599627370496%Z in Hm.
        exact Hm.
Qed.

End F64Unit.

Import F64Unit.

Module F64Class.




End F64Class.

Import F64Class.

(** ** Distance and weight, again *)

Lemma distance_sym xs g : distance xs g = distance g xs.
Proof.
  destruct xs as [[x y] z], g as [[gx gy] gz]. unfold distance.
  now rewrite (fsq_sub_swap gx x), (fsq_sub_swap gy y), (fsq_sub_swap gz z).
Qed.



(** Whether [point] raises, and what, does not depend on the position of
    the source. *)
Lemma point_raise_position defs_c xs xs' sig t grid c e :
  point defs_c xs sig t grid c = Raise e ->
  point defs_c xs' sig t grid c = Raise e.
Proof.
  intro H. destruct (grid_shape grid) as [S|] eqn:HS.
  - destruct sig as [[|d data] fs off].
    + rewrite (point_raise_empty defs_c xs fs off t grid c S HS) in H.
      now rewrite (point_raise_empty defs_c xs' fs off t grid c S HS).
    + destruct (point_ok defs_c xs (Signal (d :: data) fs off) t grid c S HS)
        as (f' & Hf' & _); [discriminate|].
      rewrite Hf' in H. discriminate.
  - rewrite (point_raise_grid defs_c xs sig t grid c HS) in H.
    now rewrite (point_raise_grid defs_c xs' sig t grid c HS).
Qed.

(** ** The loop, again *)

Section LoopFacts.

Variable defs_c : float.
Variables (sig : signal) (t : float) (grid : xyz) (c : option float).

Lemma superpose_keeps_shape images a p' :
  superpose defs_c sig t grid c (PArr a) images = Ok p' ->
  exists a', p' = PArr a' /\ shape a' = shape a.
Proof.
  revert a. induction images as [|[pos s] images IH]; intros a H.
  - injection H as <-. now exists a.
  - simpl in H. destruct (neqb s 0); [|now apply IH].
    destruct (point defs_c pos sig t grid c) as [f|e]; [|discriminate].
    simpl in H. unfold Np.iadd in H.
    destruct (Np.broadcast_shapes (shape a) (shape (Np.map (mul s) f)))
      as [sh|]; [|discriminate].
    destruct (list_eq_dec Nat.eq_dec sh (shape a)); [|discriminate].
    simpl in H. destruct (IH _ H) as (a' & -> & Hs). now exists a'.
Qed.

Lemma naive_sum_raise p pos s rest e :
  point defs_c pos sig t grid c = Raise e ->
  naive_sum defs_c sig t grid c p ((pos, s) :: rest) = Raise e.
Proof. intro H. simpl. now rewrite H. Qed.

End LoopFacts.

Lemma filter_none {A} (f : A -> bool) l :
  Forall (fun x => f x = false) l -> filter f l = [].
Proof.
  induction 1 as [|x l Hx _ IH]; simpl; [reflexivity|]. now rewrite Hx.
Qed.

Lemma In_combine_nth {A B} (l : list A) (l' : list B) i d d' :
  (i < length l)%nat -> (i < length l')%nat ->
  In (nth i l d, nth i l' d') (combine l l').
Proof.
  revert l' i. induction l as [|a l IH]; intros [|b l'] [|i] H H'; simpl in *;
    try lia.
  - now left.
  - right. apply IH; lia.
Qed.

Lemma pis_unfold defs_c fpow enum x0 sig t grid L max_order coeffs c strengths :
  source_strengths fpow
    (match coeffs with Some cs => cs | None => Np.ones 6 end)
    (snd (enum x0 L max_order)) = Ok strengths ->
  point_image_sources defs_c fpow enum x0 sig t grid L max_order coeffs c
  = naive_sum defs_c sig t grid c (PInt 0)
      (filter contributes (combine (fst (enum x0 L max_order)) strengths)).
Proof.
  intro H. unfold point_image_sources.
  destruct (enum x0 L max_order) as [ps ord]. simpl in *.
  rewrite H. simpl bind. apply superpose_naive_sum.
Qed.

Lemma filter_exists {A} (f : A -> bool) l :
  Exists (fun x => f x = true) l -> filter f l <> [].
Proof.
  intros H E. apply Exists_exists in H. destruct H as (x & Hin & Hx).
  assert (Hin' : In x (filter f l)) by (apply filter_In; auto).
  rewrite E in Hin'. contradiction.
Qed.

Lemma superpose_from_int defs_c sig t grid c images z p :
  superpose defs_c sig t grid c (PInt z) images = Ok p ->
  match p with
  | PInt z' => z' = z
  | PArr a => grid_shape grid = Some (shape a)
  end.
Proof.
  induction images as [|[pos s] images IH]; intro H.
  - injection H as <-. reflexivity.
  - simpl in H. destruct (neqb s 0); [|now apply IH].
    destruct (point defs_c pos sig t grid c) as [f|e] eqn:Hf; [|discriminate].
    simpl in H.
    destruct (superpose_keeps_shape defs_c sig t grid c images _ p H)
      as (a' & -> & Hs).
    simpl in Hs. rewrite Hs. now destruct (point_inv defs_c _ _ _ _ _ _ Hf).
Qed.

Lemma pis_strengths_ext defs_c fpow enum x0 sig t grid L max_order cs cs' c :
  source_strengths fpow cs (snd (enum x0 L max_order))
  = source_strengths fpow cs' (snd (enum x0 L max_order)) ->
  point_image_sources defs_c fpow enum x0 sig t grid L max_order (Some cs) c
  = point_image_sources defs_c fpow enum x0 sig t grid L max_order (Some cs') c.
Proof.
  intro H. unfold point_image_sources.
  destruct (enum x0 L max_order) as [ps ord]. simpl in H. now rewrite H.
Qed.

Lemma map_combine_repeat (fpow : float -> Z -> float) k (row : list Z) :
  List.map (fun ck => fpow (fst ck) (snd ck)) (combine (repeat k (length row)) row)
  = List.map (fpow k) row.
Proof. induction row as [|z row IH]; simpl; [reflexivity|]. now rewrite IH. Qed.

Section FieldFacts.

Variable defs_c : float.

Lemma point_value_outside xs data fs time t c g :
  let offset := match time with Some v => v | None => 0 end in
  let speed := match c with Some v => v | None => defs_c end in
  let r := distance xs g in
  let tr := retarded_time t offset r speed in
  data <> [] -> is_finite (weight r) = true ->
  (tr <? sample_time fs 0) = true
  \/ (sample_time fs (length data - 1) <? tr) = true ->
  is_zero (point_value defs_c xs (Signal data fs time) t c g) = true.
Proof.
  intros offset speed r tr Hd Hw Ht.
  unfold point_value. simpl Util.as_delayed_signal. cbv beta iota.
  fold offset speed r tr.
  assert (HN : (0 < length data)%nat)
    by (destruct data; [contradiction|simpl; lia]).
  assert (Hxp : Np.arange_div (length data) fs <> []).
  { intro E. apply (f_equal (@length float)) in E.
    rewrite length_arange_div in E. simpl in E. lia. }
  apply fmul_finite_zero; [exact Hw|].
  destruct (interp_one_outside (Np.arange_div (length data) fs)
              data 0 0 tr Hxp) as [E|E]; [|now rewrite E|now rewrite E].
  rewrite length_arange_div, !nth_arange_div by lia. exact Ht.
Qed.

Variables (sig : signal) (t : float) (grid : xyz) (c : option float).

Lemma sum_at_zero idx images acc :
  Forall (fun image =>
            is_zero (snd image
                     * point_value defs_c (fst image) sig t c
                                   (grid_point grid idx)) = true) images ->
  is_zero acc = true ->
  is_zero (sum_at defs_c sig t grid c idx images acc) = true.
Proof.
  intro H. revert acc. induction H as [|image images Hz _ IH]; intros acc Ha.
  - exact Ha.
  - unfold sum_at in *. simpl. apply IH. now apply fadd_zero_zero.
Qed.

Lemma sum_at_nan_acc idx images acc :
  is_nan acc = true -> is_nan (sum_at defs_c sig t grid c idx images acc) = true.
Proof.
  revert acc. induction images as [|image images IH]; intros acc Ha;
    [exact Ha|].
  unfold sum_at in *. simpl. apply IH. now apply fadd_nan_l.
Qed.

Lemma sum_at_nan idx images acc :
  Exists (fun image => is_nan (snd image) = true) images ->
  is_nan (sum_at defs_c sig t grid c idx images acc) = true.
Proof.
  intro H. revert acc. induction H as [image images Hn|image images _ IH];
    intro acc.
  - unfold sum_at. simpl. apply sum_at_nan_acc.
    now apply fadd_nan_r, fmul_nan_l.
  - unfold sum_at in *. simpl. apply IH.
Qed.

End FieldFacts.

Section NanSums.

Variable defs_c : float.
Variables (sig : signal) (t : float) (grid : xyz) (c : option float).


End NanSums.

Section FieldSums.

Variable defs_c : float.
Variables (sig : signal) (t : float) (grid : xyz) (c : option float).

Lemma fields_exist S positions :
  grid_shape grid = Some S -> signal_data sig <> [] ->
  exists fields, fields_of defs_c sig t grid c positions fields.
Proof.
  intros HS Hd. induction positions as [|pos positions [fields IH]].
  - exists []. constructor.
  - destruct (point_ok defs_c pos sig t grid c S HS Hd) as (f & Hf & _).
    exists (f :: fields). now constructor.
Qed.



(** With every strength one. *)
Lemma sum_at_unit idx positions fields acc :
  fields_of defs_c sig t grid c positions fields ->
  sum_at defs_c sig t grid c idx (List.map (fun pos => (pos, 1)) positions) acc
  = fold_left (fun acc f => acc + get f idx) fields acc.
Proof.
  intro H. revert acc. induction H as [|pos f positions fields Hf _ IH];
    intro acc; [reflexivity|].
  unfold sum_at in *. simpl. rewrite <- IH.
  now rewrite fmul_1_l, (point_get defs_c _ _ _ _ _ _ idx Hf).
Qed.

(** What the sum of unit strengths returns. *)
Lemma naive_sum_unit S positions :
  grid_shape grid = Some S -> signal_data sig <> [] ->
  exists fields p,
    fields_of defs_c sig t grid c positions fields
    /\ naive_sum defs_c sig t grid c (PInt 0)
                 (List.map (fun pos => (pos, 1)) positions) = Ok p
    /\ (positions = [] -> p = PInt 0)
    /\ (positions <> [] -> exists a, p = PArr a /\ shape a = S)
    /\ forall idx, value_at p idx = plain_sum_at fields idx.
Proof.
  intros HS Hd.
  destruct (fields_exist S positions HS Hd) as [fields Hfs].
  destruct (naive_sum_ok defs_c sig t grid c S
              (List.map (fun pos => (pos, 1)) positions) (PInt 0) HS Hd I)
    as (p & Hp & Hok & Hnil & Hcons & Hv).
  exists fields, p. split; [exact Hfs|]. split; [exact Hp|].
  split; [|split].
  - intros ->. now apply Hnil.
  - intro Hne. destruct Hcons as [a ->].
    { destruct positions; [contradiction|discriminate]. }
    now exists a.
  - intro idx. rewrite Hv. now apply sum_at_unit.
Qed.

End FieldSums.


Lemma pis_unit_strengths defs_c fpow enum x0 sig t grid L n coeffs c :
  let cs := match coeffs with Some cs => cs | None => Np.ones 6 end in
  let positions := fst (enum x0 L n) in
  let order := snd (enum x0 L n) in
  source_strengths fpow cs order = Ok (List.map (fun _ => 1) (rows order)) ->
  length (rows order) = length positions ->
  point_image_sources defs_c fpow enum x0 sig t grid L n coeffs c
  = naive_sum defs_c sig t grid c (PInt 0)
              (List.map (fun pos => (pos, 1)) positions).
Proof.
  intros cs positions order Hss Hlen.
  rewrite (pis_unfold defs_c fpow enum x0 sig t grid L n coeffs c _ Hss).
  fold positions order.
  now rewrite combine_constant, filter_contributes_unit.
Qed.

(** ** Strengths for coefficients between 0 and 1 *)

Section UnitStrength.

Variable fpow : float -> Z -> float.

Hypothesis fpow_unit :
  forall x k, in_unit_interval x = true -> (0 <= k)%Z ->
              in_unit_interval (fpow x k) = true.




End UnitStrength.

Lemma pow_mul_unit x k :
  in_unit_interval x = true -> (0 <= k)%Z -> in_unit_interval (pow_mul x k) = true.
Proof.
  intros Hx Hk. destruct k as [|p|p]; try lia; [reflexivity|]. simpl.
  apply Pos.iter_invariant; [|reflexivity].
  intros y Hy. now apply fmul_unit_interval.
Qed.

(** ** Interpolation at a sample time *)

Lemma interp_one_on_sample data fs lval rval t k :
  increasing_times fs (length data) ->
  (k < length data)%nat -> (sample_time fs k =? t) = true ->
  Np.interp_one (Np.arange_div (length data) fs) data lval rval t
  = nth k data 0.
Proof.
  intros Hinc Hk Ht.
  assert (Hlt : forall j, (j < length data)%nat ->
                          (sample_time fs j <? t)
                          = (sample_time fs j <? sample_time fs k))
    by (intros j _; symmetry; now apply eqb_ltb_r).
  assert (Hgt : forall j, (j < length data)%nat ->
                          (t <? sample_time fs j)
                          = (sample_time fs k <? sample_time fs j))
    by (intros j _; symmetry; now apply eqb_ltb_l).
  assert (Hle : forall j, (j < length data)%nat ->
                          (sample_time fs j <=? t)
                          = (sample_time fs j <=? sample_time fs k))
    by (intros j _; symmetry; now apply eqb_leb_r).
  assert (Hkk : (sample_time fs k <? sample_time fs k) = false).
  { rewrite (eqb_ltb_r _ _ _ Ht). now apply eqb_ltb_false. }
  assert (Hkle : (sample_time fs k <=? sample_time fs k) = true).
  { rewrite (eqb_leb_r _ _ _ Ht). now apply eqb_leb_true. }
  unfold Np.interp_one. rewrite length_arange_div.
  destruct (Nat.eqb_spec (length data) 1) as [H1|H1].
  - assert (k = 0)%nat as -> by lia.
    rewrite nth_arange_div by lia.
    now rewrite Hgt, Hlt, Hkk by lia.
  - rewrite (eqb_not_nan_r _ _ Ht). unfold Np.binary_search_with_guess.
    rewrite length_arange_div, !nth_arange_div by lia.
    rewrite Hlt, Hgt by lia.
    assert (E1 : (sample_time fs (length data - 1) <? sample_time fs k)
                 = false).
    { destruct (Nat.eq_dec k (length data - 1)) as [<-|Hne]; [exact Hkk|].
      apply ltb_asym, Hinc. lia. }
    assert (E2 : (sample_time fs k <? sample_time fs 0) = false).
    { destruct (Nat.eq_dec k 0) as [->|Hne]; [exact Hkk|].
      apply ltb_asym, Hinc. lia. }
    rewrite E1, E2.
    destruct (linear_search_spec t (tl (Np.arange_div (length data) fs)) 1)
      as (Hb & Hbelow & Hstop).
    set (i := Np.linear_search t (tl (Np.arange_div (length data) fs)) 1) in *.
    assert (Hlen : length (tl (Np.arange_div (length data) fs))
                   = (length data - 1)%nat).
    { pose proof (length_arange_div (length data) fs) as L.
      destruct (Np.arange_div (length data) fs); simpl in *; lia. }
    rewrite Hlen in Hb, Hstop.
    assert (Hi : i = S k).
    { destruct (Nat.lt_trichotomy i (S k)) as [Hlow|[Heq|Hhigh]];
        [|exact Heq|].
      - specialize (Hstop ltac:(lia)).
        rewrite nth_tl, nth_arange_div in Hstop by lia.
        replace (S (i - 1)) with i in Hstop by lia.
        rewrite Hle in Hstop by lia.
        destruct (Nat.eq_dec i k) as [E|Hne].
        + rewrite E, Hkle in Hstop. discriminate.
        + rewrite (ltb_leb_true _ _ (Hinc i k ltac:(lia))) in Hstop.
          discriminate.
      - specialize (Hbelow (i - 2)%nat ltac:(lia)).
        rewrite nth_tl, nth_arange_div in Hbelow by lia.
        rewrite Hle in Hbelow by lia.
        rewrite (ltb_leb_false _ _ (Hinc k (S (i - 2)) ltac:(lia))) in Hbelow.
        discriminate. }
    rewrite Hi.
    replace (Z.of_nat (S k) - 1 =? -1)%Z with false
      by (symmetry; apply Z.eqb_neq; lia).
    replace (Z.of_nat (S k) - 1 =? Z.of_nat (length data))%Z with false
      by (symmetry; apply Z.eqb_neq; lia).
    replace (Z.to_nat (Z.of_nat (S k) - 1)) with k by lia.
    destruct (k =? length data - 1)%nat; [reflexivity|].
    rewrite nth_arange_div by lia. now rewrite Ht.
Qed.

(** * Properties of [point] *)

(** C1.  For a signal with sample rate > 0, every field that [point]
    returns holds, at each grid point, 1/(4 pi r) times the signal
    linearly interpolated at the retarded time
    (observation_time - offset) - r/c, where r is the Euclidean distance
    from the source to the grid point and sample k of the signal is at time
    k / samplerate; this wherever the retarded time is a number.  [point]
    returns a field whenever the signal has a sample and the grid
    broadcasts. *)
Theorem point_field_value
        defs_c xs data samplerate time observation_time grid c :
  let offset := match time with Some t => t | None => 0 end in
  let speed := match c with Some v => v | None => defs_c end in
  (0 <? samplerate) = true -> is_finite samplerate = true ->
  (forall f,
      point defs_c xs (Signal data samplerate time) observation_time grid c
      = Ok f ->
      forall idx,
        let r := distance xs (grid_point grid idx) in
        let t := retarded_time observation_time offset r speed in
        is_nan t = false ->
        exists v, interpolated data samplerate t v /\ get f idx = weight r * v)
  /\ (data <> [] -> grid_shape grid <> None ->
      exists f,
        point defs_c xs (Signal data samplerate time) observation_time grid c
        = Ok f).
Proof.
  intros offset speed Hpos Hfin. split.
  - intros f Hf idx r t Ht.
    destruct (point_inv defs_c _ _ _ _ _ _ Hf) as [_ Hd]. simpl in Hd.
    exists (Np.interp_one (Np.arange_div (length data) samplerate) data 0 0 t).
    split; [now apply interp_one_interpolated|].
    rewrite (point_get defs_c _ _ _ _ _ _ idx Hf). reflexivity.
  - intros Hd HS. destruct (grid_shape grid) as [S|] eqn:E; [|contradiction].
    destruct (point_ok defs_c xs (Signal data samplerate time) observation_time
                grid c S E Hd) as (f & Hf & _). now exists f.
Qed.

Lemma point_field_value_witness :
  exists f,
    point c_air (0, 0, 0) sig1 1.5
          (vector [0; 1; 343], vector [0; 0; 0], scalar 0) None = Ok f
    /\ exists v,
        interpolated [1; 2; 3] 1
          (retarded_time 1.5 0
             (distance (0, 0, 0)
                (grid_point (vector [0; 1; 343], vector [0; 0; 0], scalar 0)
                            [2%nat])) c_air) v
        /\ get f [2%nat] = weight 343 * v.
Proof.
  destruct (point_field_value c_air (0, 0, 0) [1; 2; 3] 1 None 1.5
              (vector [0; 1; 343], vector [0; 0; 0], scalar 0) None
              eq_refl eq_refl) as [Hval Hret].
  destruct Hret as [f Hf]; [discriminate | discriminate |].
  exists f. split; [exact Hf|].
  exact (Hval f Hf [2%nat] eq_refl).
Defined.

(** C2, as the code has it.  When the retarded time is before the first
    sample or after the last one, the value that [point] returns is zero
    (it compares equal to 0) wherever the weight 1/(4 pi r) is finite, and
    NaN where the weight is infinite. *)
Theorem point_zero_outside_support
        defs_c xs data samplerate time observation_time grid c f idx :
  let offset := match time with Some t => t | None => 0 end in
  let speed := match c with Some v => v | None => defs_c end in
  let r := distance xs (grid_point grid idx) in
  let t := retarded_time observation_time offset r speed in
  point defs_c xs (Signal data samplerate time) observation_time grid c = Ok f ->
  (t <? sample_time samplerate 0) = true
  \/ (sample_time samplerate (length data - 1) <? t) = true ->
  (is_finite (weight r) = true -> (get f idx =? 0) = true)
  /\ (is_inf (weight r) = true -> is_nan (get f idx) = true).
Proof.
  intros offset speed r t Hf Ht.
  destruct (point_inv defs_c _ _ _ _ _ _ Hf) as [_ Hd]. simpl in Hd.
  rewrite (point_get defs_c _ _ _ _ _ _ idx Hf).
  unfold point_value. simpl Util.as_delayed_signal. cbv beta iota.
  fold offset speed r t.
  assert (HN : (0 < length data)%nat)
    by (destruct data; [contradiction|simpl; lia]).
  assert (Hxp : Np.arange_div (length data) samplerate <> []).
  { intro E. apply (f_equal (@length float)) in E.
    rewrite length_arange_div in E. simpl in E. lia. }
  assert (Hz : Np.interp_one (Np.arange_div (length data) samplerate)
                             data 0 0 t = 0).
  { destruct (interp_one_outside (Np.arange_div (length data) samplerate)
                data 0 0 t Hxp) as [E|E]; auto.
    rewrite length_arange_div, !nth_arange_div by lia. exact Ht. }
  rewrite Hz. split; intro Hw.
  - now apply eqb_zero_of_is_zero, fmul_finite_zero.
  - now apply fmul_inf_zero.
Qed.

Lemma point_zero_outside_support_witness :
  exists f,
    point c_air (0, 0, 0) sig1 0.5
          (vector [0; 1; 343], vector [0; 0; 0], scalar 0) None = Ok f
    /\ (get f [2%nat] =? 0) = true.
Proof.
  eexists. split; [reflexivity|].
  apply (point_zero_outside_support c_air (0, 0, 0) [1; 2; 3] 1 None 0.5
           (vector [0; 1; 343], vector [0; 0; 0], scalar 0) None _ [2%nat]
           eq_refl).
  - left. reflexivity.
  - reflexivity.
Defined.

(** C2 fails at a grid point on the source: one second before a signal of
    one sample starts, the weight is infinite, the interpolated signal is
    0, and the value returned is NaN. *)
Lemma point_nan_at_source_outside_support :
  exists f,
    point c_air (0, 0, 0) (Signal [1] 1 None) (-1)
          (scalar 0, scalar 0, scalar 0) None = Ok f
    /\ (retarded_time (-1) 0
          (distance (0, 0, 0) (grid_point (scalar 0, scalar 0, scalar 0) []))
          c_air <? sample_time 1 0) = true
    /\ (get f [] =? 0) = false
    /\ is_nan (get f []) = true.
Proof.
  eexists. split; [reflexivity|]. repeat split; reflexivity.
Qed.

(** C8, as the code has it.  For a signal without samples [point] returns
    no field: it raises ValueError, the interpolation rejecting an empty
    array of sample points (or the grid failing to broadcast before
    that). *)
Theorem point_empty_signal_raises
        defs_c xs samplerate time observation_time grid c :
  point defs_c xs (Signal [] samplerate time) observation_time grid c
  = Raise (ValueError
             match grid_shape grid with
             | Some _ => "array of sample points is empty"
             | None => "operands could not be broadcast together"
             end).
Proof.
  destruct (grid_shape grid) as [S|] eqn:E.
  - now apply (point_raise_empty defs_c xs samplerate time observation_time
                 grid c S).
  - now apply point_raise_grid.
Qed.

(** C8 fails: an empty signal at 44100 Hz on a grid of two points. *)
Lemma point_empty_signal_value_error :
  point c_air (0, 0, 0) (Signal [] 44100 None) 0
        (vector [1; 2], vector [0; 0], scalar 0) None
  = Raise (ValueError "array of sample points is empty").
Proof. reflexivity. Qed.




(** * Properties of [point_image_sources] *)




(** C4.  With the coefficients omitted, on an enumeration of as many
    order rows, of six entries each, as positions, [point_image_sources]
    returns the plain sum of [point] over the positions: the same
    exception, the same int, or an array of the same shape and values as
    adding the fields one after the other gives; at every grid index the
    value is the sum, from 0 and in order, of the values there of the
    fields that [point] returns at the positions. *)
Theorem unit_coefficients_plain_sum
        defs_c fpow enum x0 sig observation_time grid L max_order c :
  let positions := fst (enum x0 L max_order) in
  let order := snd (enum x0 L max_order) in
  (forall k, fpow 1 k = 1) ->
  wf_matrix order -> ncols order = 6%nat ->
  length (rows order) = length positions ->
  result_equiv eq
    (point_image_sources defs_c fpow enum x0 sig observation_time grid L
                         max_order None c)
    (direct_sum defs_c sig observation_time grid c (PInt 0) positions)
  /\ forall S,
      grid_shape grid = Some S -> signal_data sig <> [] ->
      exists fields p,
        fields_of defs_c sig observation_time grid c positions fields
        /\ point_image_sources defs_c fpow enum x0 sig observation_time grid L
                               max_order None c
           = Ok p
        /\ (positions = [] -> p = PInt 0)
        /\ (positions <> [] -> exists a, p = PArr a /\ shape a = S)
        /\ forall idx, value_at p idx = plain_sum_at fields idx.
Proof.
  intros positions order Hp1 Hwf Hn Hlen.
  assert (Hss : source_strengths fpow (Np.ones 6) order
                = Ok (List.map (fun _ => 1) (rows order))).
  { rewrite source_strengths_formula by (auto; rewrite Hn; reflexivity).
    f_equal. apply map_ext. intro row. now apply strength_formula_ones. }
  pose proof (pis_unit_strengths defs_c fpow enum x0 sig observation_time grid
                L max_order None c Hss Hlen) as Hpis.
  fold positions in Hpis. rewrite Hpis. split.
  - now apply naive_sum_unit_direct_sum.
  - intros S HS Hd. now apply naive_sum_unit.
Qed.

Lemma unit_coefficients_plain_sum_witness :
  exists f f' a,
    point c_air (1, 0.5, 0.5) sig1 1 grid1 None = Ok f
    /\ point c_air (-1, 0.5, 0.5) sig1 1 grid1 None = Ok f'
    /\ point_image_sources c_air pow_mul mirror_x0 source1 sig1 1 grid1
                           room1 1 None None = Ok (PArr a)
    /\ shape a = [2%nat]
    /\ get a [1%nat] = 0 + get f [1%nat] + get f' [1%nat].
Proof.
  destruct (unit_coefficients_plain_sum c_air pow_mul mirror_x0 source1 sig1
              1 grid1 room1 1 None pow_mul_one) as [_ H].
  - repeat constructor.
  - reflexivity.
  - reflexivity.
  - destruct (H [2%nat] eq_refl) as (fields & p & Hfs & Hp & _ & Ha & Hv).
    { discriminate. }
    destruct Ha as (a & -> & Hsa); [discriminate|].
    inversion Hfs as [|? f ? fs' Hf Hfs']; subst.
    inversion Hfs' as [|? f' ? fs'' Hf' Hfs'']; subst.
    inversion Hfs''; subst.
    exists f, f', a. repeat split; auto. apply (Hv [1%nat]).
Defined.




(** C6.  On an enumeration whose order rows have as many entries as there
    are coefficients, the strength that [point_image_sources] computes for
    each image is the product, over the walls, of the coefficient of the
    wall raised to the image's order at that wall. *)
Theorem strength_is_product
        defs_c fpow enum x0 sig observation_time grid L max_order coeffs c :
  let cs := match coeffs with Some cs => cs | None => Np.ones 6 end in
  let positions := fst (enum x0 L max_order) in
  let order := snd (enum x0 L max_order) in
  wf_matrix order -> ncols order = length cs ->
  exists strengths,
    source_strengths fpow cs order = Ok strengths
    /\ point_image_sources defs_c fpow enum x0 sig observation_time grid L
                           max_order coeffs c
       = superpose defs_c sig observation_time grid c (PInt 0)
                   (combine positions strengths)
    /\ length strengths = length (rows order)
    /\ forall i, (i < length (rows order))%nat ->
                 nth i strengths 0
                 = strength_formula fpow cs (nth i (rows order) []).
Proof.
  intros cs positions order Hwf Hn.
  exists (List.map (strength_formula fpow cs) (rows order)).
  assert (Hss := source_strengths_formula fpow cs order Hwf Hn).
  split; [exact Hss|]. split; [|split].
  - unfold point_image_sources. fold cs. subst positions order.
    destruct (enum x0 L max_order) as [ps ord]. simpl in *. now rewrite Hss.
  - apply length_map.
  - intros i Hi. now apply nth_strengths.
Qed.

Lemma strength_is_product_witness :
  exists strengths,
    source_strengths pow_mul [0.5; 1; 1; 1; 1; 1]
                     (snd (mirror_x0 source1 room1 1))
    = Ok strengths
    /\ nth 1 strengths 0
       = strength_formula pow_mul [0.5; 1; 1; 1; 1; 1] [1; 0; 0; 0; 0; 0]%Z.
Proof.
  destruct (strength_is_product c_air pow_mul mirror_x0 source1 sig1 1
              grid1 room1 1 (Some [0.5; 1; 1; 1; 1; 1]) None)
    as (ss & Hss & _ & _ & Hnth).
  - repeat constructor.
  - reflexivity.
  - exists ss. split; [exact Hss|]. apply (Hnth 1%nat). simpl. lia.
Defined.

(** C7.  A field that [point] returns has the shape on which the grid
    broadcasts.  Where [point] returns fields, [point_image_sources]
    returns an array of that shape whenever some image has a non-zero
    strength; and one has whenever the enumeration lists, with a position,
    an image that has hit no wall, as the real source is: its strength is
    1 whatever the coefficients, so that the case of no image of non-zero
    strength does not arise. *)
Theorem field_has_grid_shape
        defs_c fpow enum x0 sig observation_time grid L max_order coeffs c :
  let cs := match coeffs with Some cs => cs | None => Np.ones 6 end in
  let positions := fst (enum x0 L max_order) in
  let order := snd (enum x0 L max_order) in
  (forall xs f,
      point defs_c xs sig observation_time grid c = Ok f ->
      grid_shape grid = Some (shape f))
  /\ (forall S strengths,
         grid_shape grid = Some S -> signal_data sig <> [] ->
         source_strengths fpow cs order = Ok strengths ->
         Exists (fun image => contributes image = true)
                (combine positions strengths) ->
         exists a,
           point_image_sources defs_c fpow enum x0 sig observation_time grid L
                               max_order coeffs c
           = Ok (PArr a)
           /\ shape a = S)
  /\ (forall S i,
         grid_shape grid = Some S -> signal_data sig <> [] ->
         wf_matrix order -> ncols order = length cs ->
         (forall x, fpow x 0%Z = 1) ->
         (i < length positions)%nat -> (i < length (rows order))%nat ->
         (forall axis, nth axis (nth i (rows order) []) 0%Z = 0%Z) ->
         exists strengths a,
           source_strengths fpow cs order = Ok strengths
           /\ Exists (fun image => contributes image = true)
                     (combine positions strengths)
           /\ point_image_sources defs_c fpow enum x0 sig observation_time
                                  grid L max_order coeffs c
              = Ok (PArr a)
           /\ shape a = S).
Proof.
  intros cs positions order.
  assert (Hsome : forall S strengths,
             grid_shape grid = Some S -> signal_data sig <> [] ->
             source_strengths fpow cs order = Ok strengths ->
             Exists (fun image => contributes image = true)
                    (combine positions strengths) ->
             exists a,
               point_image_sources defs_c fpow enum x0 sig observation_time
                                   grid L max_order coeffs c
               = Ok (PArr a)
               /\ shape a = S).
  { intros S ss HS Hd Hss Hex.
    destruct (naive_sum_ok defs_c sig observation_time grid c S
                (filter contributes (combine positions ss)) (PInt 0) HS Hd I)
      as (p & Hp & Hok & _ & Hne & _).
    destruct Hne as [a ->]; [now apply filter_exists|].
    exists a. split; [|exact Hok].
    now rewrite (pis_unfold defs_c fpow enum x0 sig observation_time grid L
                   max_order coeffs c ss Hss). }
  split; [|split; [exact Hsome|]].
  - intros xs f Hf. now destruct (point_inv defs_c _ _ _ _ _ _ Hf).
  - intros S i HS Hd Hwf Hn Hp0 Hi Hi' Hrow.
    pose proof (source_strengths_formula fpow cs order Hwf Hn) as Hss.
    assert (Hex : Exists (fun image => contributes image = true)
                    (combine positions
                       (List.map (strength_formula fpow cs) (rows order)))).
    { apply Exists_exists.
      exists (nth i positions (0, 0, 0),
              nth i (List.map (strength_formula fpow cs) (rows order)) 0).
      split.
      - apply In_combine_nth; [exact Hi|]. now rewrite length_map.
      - unfold contributes. simpl snd. rewrite nth_strengths by exact Hi'.
        now rewrite strength_formula_zero_order. }
    destruct (Hsome S _ HS Hd Hss Hex) as (a & Ha & Hsa).
    eexists. exists a. split; [exact Hss|]. split; [exact Hex|]. now split.
Qed.

Lemma field_has_grid_shape_witness :
  exists a,
    point_image_sources c_air pow_mul mirror_x0 source1 sig1 1 grid1
                        room1 1 (Some [0; 0; 0; 0; 0; 0]) None
    = Ok (PArr a)
    /\ shape a = [2%nat].
Proof.
  destruct (field_has_grid_shape c_air pow_mul mirror_x0 source1 sig1 1
              grid1 room1 1 (Some [0; 0; 0; 0; 0; 0]) None) as (_ & _ & H).
  destruct (H [2%nat] 0%nat) as (ss & a & _ & _ & Ha & Hs).
  - reflexivity.
  - discriminate.
  - repeat constructor.
  - reflexivity.
  - exact pow_mul_zero_exponent.
  - simpl. lia.
  - simpl. lia.
  - intro axis. do 7 (destruct axis as [|axis]; [reflexivity|]). reflexivity.
  - now exists a.
Defined.



(** * Further properties of the code *)

(** X1.  A signal given with the time of its first sample is the signal
    without one, observed that much earlier: for the offset [offset] at
    the time [t], [point] returns the field, or raises the error, that it
    returns or raises for no offset at the time [t - offset]. *)
Theorem offset_shifts_observation_time defs_c xs data samplerate offset t grid c :
  field_result_equiv eq
    (point defs_c xs (Signal data samplerate (Some offset)) t grid c)
    (point defs_c xs (Signal data samplerate None) (t - offset) grid c).
Proof.
  destruct (grid_shape grid) as [S|] eqn:HS.
  - destruct data as [|d data].
    + now rewrite !(point_raise_empty defs_c xs samplerate _ _ grid c S HS).
    + destruct (point_ok defs_c xs (Signal (d :: data) samplerate (Some offset))
                  t grid c S HS) as (f & Hf & Hsf & Hgf); [discriminate|].
      destruct (point_ok defs_c xs (Signal (d :: data) samplerate None)
                  (t - offset) grid c S HS) as (g & Hg & Hsg & Hgg);
        [discriminate|].
      rewrite Hf, Hg. split; [congruence|].
      intro idx. rewrite Hgf, Hgg. unfold point_value, retarded_time.
      simpl Util.as_delayed_signal. cbv beta iota.
      now rewrite fsub_0_r.
  - now rewrite !(point_raise_grid defs_c xs _ _ grid c HS).
Qed.

(** X2.  Source and receiver can be exchanged: for a signal with a sample
    rate > 0, the value that [point] returns at the grid point [g] for a
    source at [xs] is the value that it returns at the grid point [xs]
    for a source at [g], bit for bit. *)
Theorem source_receiver_reciprocity
        defs_c xs g data samplerate time t c grid1 grid2 idx1 idx2 f1 f2 :
  (0 <? samplerate) = true -> is_finite samplerate = true ->
  point defs_c xs (Signal data samplerate time) t grid1 c = Ok f1 ->
  point defs_c g (Signal data samplerate time) t grid2 c = Ok f2 ->
  grid_point grid1 idx1 = g -> grid_point grid2 idx2 = xs ->
  get f1 idx1 = get f2 idx2.
Proof.
  intros _ _ H1 H2 Hg Hx.
  rewrite (point_get defs_c _ _ _ _ _ _ idx1 H1),
          (point_get defs_c _ _ _ _ _ _ idx2 H2), Hg, Hx.
  unfold point_value. now rewrite (distance_sym xs g).
Qed.

Lemma source_receiver_reciprocity_witness :
  exists f1 f2,
    point c_air (1, 0.5, 0.5) sig1 1
          (vector [0.25; 3], vector [0.5; 2], scalar 0.5) None = Ok f1
    /\ point c_air (3, 2, 0.5) sig1 1
             (scalar 1, scalar 0.5, scalar 0.5) None = Ok f2
    /\ get f1 [1%nat] = get f2 [].
Proof.
  eexists. eexists. split; [reflexivity|]. split; [reflexivity|].
  apply (source_receiver_reciprocity c_air (1, 0.5, 0.5) (3, 2, 0.5)
           [1; 2; 3] 1 None 1 None
           (vector [0.25; 3], vector [0.5; 2], scalar 0.5)
           (scalar 1, scalar 0.5, scalar 0.5) [1%nat] []);
    reflexivity.
Defined.

(** X3.  No field is computed for an image of strength zero.  When
    [point] raises for the signal and the grid, [point_image_sources]
    raises that error as soon as one image has a non-zero strength, and
    returns the int 0, raising nothing, when none has. *)
Theorem image_sources_raise_what_point_raises
        defs_c fpow enum x0 sig t grid L max_order coeffs c strengths xs e :
  let cs := match coeffs with Some cs => cs | None => Np.ones 6 end in
  let positions := fst (enum x0 L max_order) in
  let order := snd (enum x0 L max_order) in
  source_strengths fpow cs order = Ok strengths ->
  point defs_c xs sig t grid c = Raise e ->
  (Exists (fun image => contributes image = true)
          (combine positions strengths) ->
   point_image_sources defs_c fpow enum x0 sig t grid L max_order coeffs c
   = Raise e)
  /\ (Forall (fun image => contributes image = false)
             (combine positions strengths) ->
      point_image_sources defs_c fpow enum x0 sig t grid L max_order coeffs c
      = Ok (PInt 0)).
Proof.
  intros cs positions order Hss He.
  rewrite (pis_unfold defs_c fpow enum x0 sig t grid L max_order coeffs c
             strengths Hss).
  fold positions. split.
  - intro Hex. apply filter_exists in Hex.
    destruct (filter contributes (combine positions strengths))
      as [|[pos s] rest]; [contradiction|].
    apply naive_sum_raise. now apply (point_raise_position defs_c xs).
  - intro Hnone. now rewrite (filter_none _ _ Hnone).
Qed.

Lemma image_sources_raise_what_point_raises_witness :
  point_image_sources c_air pow_mul mirror_x0 source1 (Signal [] 1 None) 1
                      grid1 room1 1 None None
  = Raise (ValueError "array of sample points is empty").
Proof.
  destruct (image_sources_raise_what_point_raises c_air pow_mul mirror_x0
              source1 (Signal [] 1 None) 1 grid1 room1 1 None None [1; 1]
              source1 (ValueError "array of sample points is empty")
              eq_refl eq_refl) as [H _].
  apply H. apply Exists_cons_hd. reflexivity.
Defined.

(** X7.  What [point_image_sources] returns is the int 0 or an array of
    the shape on which the grid broadcasts, nothing else. *)
Theorem image_sources_result_shape
        defs_c fpow enum x0 sig t grid L max_order coeffs c p :
  point_image_sources defs_c fpow enum x0 sig t grid L max_order coeffs c
  = Ok p ->
  match p with
  | PInt z => z = 0%Z
  | PArr a => grid_shape grid = Some (shape a)
  end.
Proof.
  unfold point_image_sources.
  destruct (enum x0 L max_order) as [ps ord].
  destruct (source_strengths fpow _ ord) as [ss|e]; [|discriminate].
  simpl bind. apply superpose_from_int.
Qed.

Lemma image_sources_result_shape_witness :
  exists a,
    point_image_sources c_air pow_mul mirror_x0 source1 sig1 1 grid1 room1 1
                        None None = Ok (PArr a)
    /\ grid_shape grid1 = Some (shape a).
Proof.
  eexists. split; [reflexivity|].
  apply (image_sources_result_shape c_air pow_mul mirror_x0 source1 sig1 1
           grid1 room1 1 None None (PArr _) eq_refl).
Defined.

(** X8.  The room is silent before the sound arrives and after it has
    passed: at a grid index where, for every image of non-zero strength,
    the strength and the weight are finite and the retarded time is
    before the first sample or after the last one, the value that
    [point_image_sources] returns compares equal to 0. *)
Theorem room_silent_before_arrival
        defs_c fpow enum x0 data fs time t grid L max_order coeffs c S
        strengths idx :
  let cs := match coeffs with Some cs => cs | None => Np.ones 6 end in
  let positions := fst (enum x0 L max_order) in
  let order := snd (enum x0 L max_order) in
  let offset := match time with Some v => v | None => 0 end in
  let speed := match c with Some v => v | None => defs_c end in
  grid_shape grid = Some S -> data <> [] ->
  source_strengths fpow cs order = Ok strengths ->
  Forall (fun image =>
            contributes image = true ->
            let r := distance (fst image) (grid_point grid idx) in
            let tr := retarded_time t offset r speed in
            is_finite (snd image) = true
            /\ is_finite (weight r) = true
            /\ ((tr <? sample_time fs 0) = true
                \/ (sample_time fs (length data - 1) <? tr) = true))
         (combine positions strengths) ->
  exists p,
    point_image_sources defs_c fpow enum x0 (Signal data fs time) t grid L
                        max_order coeffs c = Ok p
    /\ (value_at p idx =? 0) = true.
Proof.
  intros cs positions order offset speed HS Hd Hss Hall.
  rewrite (pis_unfold defs_c fpow enum x0 (Signal data fs time) t grid L
             max_order coeffs c strengths Hss). fold positions.
  destruct (naive_sum_ok defs_c (Signal data fs time) t grid c S
              (filter contributes (combine positions strengths)) (PInt 0)
              HS Hd I) as (p & Hp & _ & _ & _ & Hv).
  exists p. split; [exact Hp|].
  apply eqb_zero_of_is_zero. rewrite Hv. apply sum_at_zero; [|reflexivity].
  apply Forall_forall. intros image Hin. apply filter_In in Hin.
  destruct Hin as [Hin Hc].
  rewrite Forall_forall in Hall.
  destruct (Hall image Hin Hc) as (Hs & Hw & Ht).
  apply fmul_finite_zero; [exact Hs|].
  now apply point_value_outside.
Qed.

Lemma room_silent_before_arrival_witness :
  exists p,
    point_image_sources c_air pow_mul mirror_x0 source1 sig1 (-1) grid1 room1 1
                        None None = Ok p
    /\ (value_at p [0%nat] =? 0) = true.
Proof.
  apply (room_silent_before_arrival c_air pow_mul mirror_x0 source1 [1; 2; 3] 1
           None (-1) grid1 room1 1 None None [2%nat] [1; 1] [0%nat]).
  - reflexivity.
  - discriminate.
  - reflexivity.
  - repeat constructor; intros _; repeat split; try reflexivity;
      left; reflexivity.
Defined.

(** X9.  An image whose strength is NaN is not skipped, NaN being
    different from 0, and it spoils the field: on a grid that broadcasts
    and for a signal with a sample, [point_image_sources] returns an array
    that is NaN at every index. *)
Theorem nan_strength_spoils_the_field
        defs_c fpow enum x0 sig t grid L max_order coeffs c S strengths :
  let cs := match coeffs with Some cs => cs | None => Np.ones 6 end in
  let positions := fst (enum x0 L max_order) in
  let order := snd (enum x0 L max_order) in
  grid_shape grid = Some S -> signal_data sig <> [] ->
  source_strengths fpow cs order = Ok strengths ->
  Exists (fun image => is_nan (snd image) = true)
         (combine positions strengths) ->
  exists a,
    point_image_sources defs_c fpow enum x0 sig t grid L max_order coeffs c
    = Ok (PArr a)
    /\ shape a = S
    /\ forall idx, is_nan (get a idx) = true.
Proof.
  intros cs positions order HS Hd Hss Hex.
  rewrite (pis_unfold defs_c fpow enum x0 sig t grid L max_order coeffs c
             strengths Hss). fold positions.
  assert (Hex' : Exists (fun image => is_nan (snd image) = true)
                        (filter contributes (combine positions strengths))).
  { apply Exists_exists in Hex. destruct Hex as (image & Hin & Hn).
    apply Exists_exists. exists image. split; [|exact Hn].
    apply filter_In. split; [exact Hin|]. now apply neqb_nan. }
  destruct (naive_sum_ok defs_c sig t grid c S
              (filter contributes (combine positions strengths)) (PInt 0)
              HS Hd I) as (p & Hp & Hok & _ & Hne & Hv).
  destruct Hne as [a ->].
  { intro E. rewrite E in Hex'. inversion Hex'. }
  exists a. split; [exact Hp|]. split; [exact Hok|].
  intro idx. specialize (Hv idx). simpl value_at in Hv at 1. rewrite Hv.
  now apply sum_at_nan.
Qed.

Lemma nan_strength_spoils_the_field_witness :
  exists a,
    point_image_sources c_air pow_mul mirror_x0 source1 sig1 1 grid1 room1 1
                        (Some [nan; 1; 1; 1; 1; 1]) None = Ok (PArr a)
    /\ is_nan (get a [1%nat]) = true.
Proof.
  destruct (nan_strength_spoils_the_field c_air pow_mul mirror_x0 source1 sig1
              1 grid1 room1 1 (Some [nan; 1; 1; 1; 1; 1]) None [2%nat]
              [1; nan]) as (a & Ha & _ & Hn).
  - reflexivity.
  - discriminate.
  - reflexivity.
  - apply Exists_cons_tl, Exists_cons_hd. reflexivity.
  - exists a. split; [exact Ha|]. apply Hn.
Defined.

(** X10.  A single coefficient serves every wall: with an order whose
    rows all have the declared number of columns, [coeffs = [k]] gives
    what that many copies of [k] give. *)
Theorem single_coefficient_serves_every_wall
        defs_c fpow enum x0 sig t grid L max_order k c :
  let order := snd (enum x0 L max_order) in
  wf_matrix order ->
  point_image_sources defs_c fpow enum x0 sig t grid L max_order (Some [k]) c
  = point_image_sources defs_c fpow enum x0 sig t grid L max_order
                        (Some (repeat k (ncols order))) c.
Proof.
  intros order Hwf. apply pis_strengths_ext. fold order.
  unfold source_strengths, power. rewrite repeat_length. simpl length.
  destruct (Nat.eqb_spec 1 (ncols order)) as [E|E].
  - rewrite <- E. reflexivity.
  - destruct (Nat.eqb_spec (ncols order) 1) as [E'|_]; [congruence|].
    rewrite (Nat.eqb_refl (ncols order)). simpl. do 2 f_equal.
    apply map_ext_in.
    intros row Hrow.
    unfold wf_matrix in Hwf. rewrite Forall_forall in Hwf.
    rewrite <- (Hwf row Hrow). symmetry. apply map_combine_repeat.
Qed.

Lemma single_coefficient_serves_every_wall_witness :
  point_image_sources c_air pow_mul mirror_x0 source1 sig1 1 grid1 room1 1
                      (Some [0.5]) None
  = point_image_sources c_air pow_mul mirror_x0 source1 sig1 1 grid1 room1 1
                        (Some [0.5; 0.5; 0.5; 0.5; 0.5; 0.5]) None.
Proof.
  apply (single_coefficient_serves_every_wall c_air pow_mul mirror_x0 source1
           sig1 1 grid1 room1 1 0.5 None).
  repeat constructor.
Defined.

(** X11.  On a time axis that increases strictly, a retarded time that
    is the time of sample [k] gives the weight times that sample, with no
    interpolation between neighbours; the first and the last sample are
    part of the support. *)
Theorem sample_is_reproduced_at_its_time
        defs_c xs data samplerate time observation_time grid c f idx k :
  let offset := match time with Some v => v | None => 0 end in
  let speed := match c with Some v => v | None => defs_c end in
  let r := distance xs (grid_point grid idx) in
  let t := retarded_time observation_time offset r speed in
  increasing_times samplerate (length data) ->
  point defs_c xs (Signal data samplerate time) observation_time grid c
  = Ok f ->
  (k < length data)%nat -> (sample_time samplerate k =? t) = true ->
  get f idx = weight r * nth k data 0.
Proof.
  intros offset speed r t Hinc Hf Hk Ht.
  rewrite (point_get defs_c _ _ _ _ _ _ idx Hf).
  unfold point_value. simpl Util.as_delayed_signal. cbv beta iota.
  fold offset speed r t. f_equal. now apply interp_one_on_sample.
Qed.

Lemma sample_is_reproduced_at_its_time_witness :
  exists f,
    point 1 (0, 0, 0) sig1 2 (scalar 1, scalar 0, scalar 0) None = Ok f
    /\ get f [] = weight 1 * 2.
Proof.
  exists (match point 1 (0, 0, 0) sig1 2 (scalar 1, scalar 0, scalar 0) None
          with Ok f => f | Raise _ => scalar 0 end).
  split; [reflexivity|].
  apply (sample_is_reproduced_at_its_time 1 (0, 0, 0) [1; 2; 3] 1 None 2
           (scalar 1, scalar 0, scalar 0) None _ [] 1%nat).
  - intros i j Hij. simpl in Hij.
    destruct i as [|[|i]], j as [|[|[|j]]]; try lia; reflexivity.
  - reflexivity.
  - simpl. lia.
  - reflexivity.
Defined.

(** X13.  [point] fails in two ways only, both ValueError: the grid
    components do not broadcast, or, on a grid that does, the signal has
    no sample.  Otherwise it returns a field of the shape of the grid;
    neither a source on a grid point nor a sample rate or speed of sound
    of zero makes it raise. *)
Theorem point_outcome defs_c xs sig t grid c :
  match point defs_c xs sig t grid c with
  | Ok f => grid_shape grid = Some (shape f) /\ signal_data sig <> []
  | Raise e =>
      (grid_shape grid = None
       /\ e = ValueError "operands could not be broadcast together")
      \/ (grid_shape grid <> None /\ signal_data sig = []
          /\ e = ValueError "array of sample points is empty")
  end.
Proof.
  destruct (point defs_c xs sig t grid c) as [f|e] eqn:H.
  - now apply (point_inv defs_c xs sig t grid c).
  - destruct (grid_shape grid) as [S|] eqn:HS.
    + right. destruct sig as [[|d data] fs off].
      * rewrite (point_raise_empty defs_c xs fs off t grid c S HS) in H.
        injection H as <-. repeat split. discriminate.
      * destruct (point_ok defs_c xs (Signal (d :: data) fs off) t grid c S HS)
          as (f' & Hf' & _); [discriminate|].
        rewrite Hf' in H. discriminate.
    + left. rewrite (point_raise_grid defs_c xs sig t grid c HS) in H.
      injection H as <-. now split.
Qed.
